(** * Mario expert agent: shallow embedding of [scripts/mario_expert.py]

    The Python module holds three layers:

    - the grid queries of [MarioExpert] ([find_mario], [find_enemy],
      [get_enemy_dist], [check_obstacle], [check_empty_jump],
      [check_power_up], [check_on_ground]);
    - [MarioExpert.choose_action]: the priority rules and the globals
      [prev_action] and [prev_x] they thread from one step to the next;
    - [MarioController.run_action]: the timed button recipes sent to the
      emulator.

    Indexing a numpy array or a Python list out of range raises
    [IndexError]; a negative index counts from the end.  Both are part of
    the model: every query returns in the error monad [res]. *)

From Stdlib Require Import ZArith QArith List Bool Lia.
Import ListNotations.
Open Scope Z_scope.

(** ** Enumerations *)

Inductive Action : Set :=
| DOWN | LEFT | RIGHT | UP | JUMP | PRESS_B
| JUMP_OBS | JUMP_EMPTY | JUMP_POWER_UP | JUMP_SKIP_ENEMY | JUMP_RIGHT
| ENEMY_LEFT | JUMP_STAIRS | TUNNEL_LEFT | JUMP_BIG_GAP | JUMP_EMPTY_REDUCED.

(** [Action.X.value] *)
Definition value (a : Action) : Z :=
  match a with
  | DOWN => 0 | LEFT => 1 | RIGHT => 2 | UP => 3 | JUMP => 4 | PRESS_B => 5
  | JUMP_OBS => 6 | JUMP_EMPTY => 7 | JUMP_POWER_UP => 8
  | JUMP_SKIP_ENEMY => 9 | JUMP_RIGHT => 10 | ENEMY_LEFT => 11
  | JUMP_STAIRS => 12 | TUNNEL_LEFT => 13 | JUMP_BIG_GAP => 14
  | JUMP_EMPTY_REDUCED => 15
  end.

(** [==] on members of the enumeration *)
Definition Action_eqb (a b : Action) : bool := value a =? value b.

(** [a in [...]] on members of the enumeration *)
Definition Action_in (a : Action) (l : list Action) : bool :=
  existsb (Action_eqb a) l.

(** The cells of the game area hold plain integers; [Element] names some
    of them. *)
Module Element.
Definition GUMBA : Z := 15.
Definition GROUND : Z := 10.
Definition BLOCK : Z := 12.
Definition POWERUP : Z := 13.
Definition PIPE : Z := 14.
Definition PICKUP : Z := 6.
Definition MARIO : Z := 1.
Definition EMPTY : Z := 0.
Definition TOAD : Z := 16.
Definition FLY : Z := 18.
Definition ARCHER : Z := 19.
End Element.

(** ** Errors and loops *)

Inductive res (A : Type) : Type :=
| Ok (a : A)
| IndexError.
Arguments Ok {A} a.
Arguments IndexError {A}.

Definition bind {A B : Type} (m : res A) (k : A -> res B) : res B :=
  match m with
  | Ok a => k a
  | IndexError => IndexError
  end.

Notation "x <- m ;; k" := (bind m (fun x => k))
  (at level 61, m at next level, right associativity).
Notation "' pat <- m ;; k" := (bind m (fun x => match x with pat => k end))
  (at level 61, pat pattern, m at next level, right associativity).

(** What one pass through a loop body does: fall through to the next
    iteration, or [return r] out of the enclosing function. *)
Inductive step (R : Type) : Type :=
| Next
| Return (r : R).
Arguments Next {R}.
Arguments Return {R} r.

(** [for i in l: body] *)
Fixpoint for_each {R : Type} (l : list Z) (body : Z -> res (step R))
  : res (step R) :=
  match l with
  | [] => Ok Next
  | i :: l' =>
      s <- body i ;;
      match s with
      | Next => for_each l' body
      | Return r => Ok (Return r)
      end
  end.

(** [range(n)] *)
Definition range (n : nat) : list Z := map Z.of_nat (seq 0 n).

(** [for b in range(y): for a in range(x): body] *)
Definition scan_columns {R : Type} (x y : nat) (body : Z -> Z -> res (step R))
  : res (step R) :=
  for_each (range y) (fun b => for_each (range x) (fun a => body a b)).

(** [for a in range(x): for b in range(y): body] *)
Definition scan_rows {R : Type} (x y : nat) (body : Z -> Z -> res (step R))
  : res (step R) :=
  for_each (range x) (fun a => for_each (range y) (fun b => body a b)).

(** The statement after the loops: [return default]. *)
Definition or_else {R : Type} (loop : res (step R)) (default : R) : res R :=
  s <- loop ;;
  match s with
  | Next => Ok default
  | Return r => Ok r
  end.

(** ** The game area *)

(** A two-dimensional integer array, as a list of rows. *)
Definition grid : Type := list (list Z).

(** [game_area.shape] *)
Definition shape (g : grid) : nat * nat := (length g, length (hd [] g)).

(** The cell of an index pair that is in range. *)
Definition tile (g : grid) (a b : Z) : Z :=
  nth (Z.to_nat b) (nth (Z.to_nat a) g []) 0.

(** One index of a subscript against an axis of length [n]. *)
Definition index (i : Z) (n : nat) : res Z :=
  if (0 <=? i) && (i <? Z.of_nat n) then Ok i
  else if (- Z.of_nat n <=? i) && (i <? 0) then Ok (i + Z.of_nat n)
  else IndexError.

(** [game_area[a][b]] and [game_area[a, b]] *)
Definition get (g : grid) (a b : Z) : res Z :=
  let '(x, y) := shape g in
  i <- index a x ;;
  j <- index b y ;;
  Ok (tile g i j).

(** ** Distances

    [get_distance] is [math.sqrt] of an exact integer.  The source only
    compares its result with constants, so a distance is kept as its
    radicand and compared on the squares; for the radicands of a grid this
    agrees with the comparison of the rounded square root. *)

Record dist : Set := Sqrt { radicand : Z }.

Definition get_distance (row0 col0 row1 col1 : Z) : dist :=
  Sqrt ((col1 - col0) * (col1 - col0) + (row1 - row0) * (row1 - row0)).

(** The integer [10000] returned when no enemy is ahead. *)
Definition far : dist := Sqrt (10000 * 10000).

(** [d < q] and [d <= q] for a constant [q >= 0] *)
Definition dist_ltb (d : dist) (q : Q) : bool :=
  radicand d * Zpos (Qden (q * q)) <? Qnum (q * q).
Definition dist_leb (d : dist) (q : Q) : bool :=
  radicand d * Zpos (Qden (q * q)) <=? Qnum (q * q).

(** ** Grid queries of [MarioExpert] *)

Definition find_mario (game_area : grid) : res (Z * Z) :=
  let '(x, y) := shape game_area in
  or_else
    (scan_rows x y (fun a b =>
       v <- get game_area a b ;;
       if v =? 1 then Ok (Return (a, b + 1)) else Ok Next))
    (0, 0).

Definition find_enemy (game_area : grid) : res (Z * Z) :=
  let '(x, y) := shape game_area in
  or_else
    (scan_rows x y (fun a b =>
       v <- get game_area a b ;;
       if v >=? Element.GUMBA then Ok (Return (a, b)) else Ok Next))
    (10000, 0).

Definition get_enemy_dist (row col : Z) (game_area : grid)
  : res (dist * option Z) :=
  let '(x, y) := shape game_area in
  or_else
    (scan_columns x y (fun a b =>
       v <- get game_area a b ;;
       if v >=? 15 then
         if b >=? col then
           let distance := get_distance row col a b in
           v' <- get game_area a b ;;
           Ok (Return (distance, Some v'))
         else Ok Next
       else Ok Next))
    (far, None).

(** The three results of [check_obstacle]: two strings and [False]. *)
Inductive obstacle : Set :=
| obstacle_found
| found_stairs
| no_obstacle.

Definition check_obstacle (row col : Z) (game_area : grid) : res obstacle :=
  let '(x, y) := shape game_area in
  if row <=? 14 then
    or_else
      (scan_columns x y (fun a b =>
         v <- get game_area a b ;;
         if (v =? Element.BLOCK) || (v =? Element.PIPE)
            || ((v =? Element.GROUND) && (b >? col) && (a <=? row + 1))
         then
           if b >? col then
             let distance := get_distance row col a b in
             (* the classification, which returns, falls through or raises *)
             s <- (if v =? Element.BLOCK then
                     below <- get game_area (a + 1) b ;;
                     if below =? Element.BLOCK then
                       _ <- get game_area (a - 1) b ;; Ok Next
                     else Ok Next
                   else if v =? Element.PIPE then Ok Next
                   else if v =? Element.GROUND then
                     below <- get game_area (a + 1) b ;;
                     if below =? Element.GROUND then
                       above <- get game_area (a - 1) b ;;
                       if above =? Element.GROUND then
                         if dist_leb distance 1.0 then Ok (Return obstacle_found)
                         else Ok Next
                       else if a =? row + 1 then
                         if dist_leb distance 2.0 then Ok (Return found_stairs)
                         else Ok Next
                       else Ok Next
                     else Ok Next
                   else Ok Next) ;;
             match s with
             | Return r => Ok (Return r)
             | Next =>
                 if dist_leb distance 2.0 then Ok (Return obstacle_found)
                 else Ok Next
             end
           else Ok Next
         else Ok Next))
      no_obstacle
  else Ok no_obstacle.

Definition check_empty_jump (row col : Z) (game_area : grid) : res bool :=
  let '(x, y) := shape game_area in
  or_else
    (scan_columns x y (fun a b =>
       v <- get game_area a b ;;
       if (v =? Element.EMPTY) && (a =? row + 2) && (b >? col) then
         (* [and] and [or] evaluate their operands from left to right and
            stop at the first one that decides *)
         l1 <- get game_area a (b - 1) ;;
         ground <- (if l1 =? Element.GROUND then
                      l2 <- get game_area a (b - 2) ;;
                      if l2 =? Element.GROUND then
                        l3 <- get game_area a (b - 3) ;;
                        Ok (l3 =? Element.GROUND)
                      else Ok false
                    else Ok false) ;;
         wide <- (if ground : bool then Ok true
                  else
                    l1 <- get game_area a (b - 1) ;;
                    if l1 =? Element.BLOCK then
                      l2 <- get game_area a (b - 2) ;;
                      if l2 =? Element.BLOCK then
                        l3 <- get game_area a (b - 3) ;;
                        Ok (l3 =? Element.BLOCK)
                      else Ok false
                    else Ok false) ;;
         if wide : bool then
           let distance := get_distance row col a b in
           if dist_leb distance 2.9 then Ok (Return true) else Ok Next
         else Ok Next
       else Ok Next))
    false.

Definition check_on_ground (row col : Z) (game_area : grid) : res bool :=
  let '(x, y) := shape game_area in
  or_else
    (scan_columns x y (fun a b =>
       v <- get game_area a b ;;
       if v =? Element.GROUND then
         if col =? b then
           r <- get game_area a (b + 1) ;;
           if r =? Element.GROUND then
             l <- get game_area a (b - 1) ;;
             if l =? Element.GROUND then Ok (Return true) else Ok Next
           else Ok Next
         else Ok Next
       else Ok Next))
    false.

(** [check_power_up] has no [return] after its loops: it returns [True],
    [False] or, falling off its end, [None]. *)
Definition check_power_up (row col : Z) (game_area : grid)
  : res (option bool) :=
  let '(x, y) := shape game_area in
  or_else
    (scan_columns x y (fun a b =>
       v <- get game_area a b ;;
       if v =? Element.POWERUP then
         on_ground <- check_on_ground row col game_area ;;
         if on_ground : bool then
           if (row >=? a) && (b >=? col) then
             let distance := get_distance row col a b in
             if dist_leb distance 3.0 then
               below <- get game_area (row + 2) col ;;
               if below =? Element.GROUND then Ok (Return (Some true))
               else Ok (Return (Some false))
             else Ok (Return (Some false))
           else Ok Next
         else Ok Next
       else Ok Next))
    None.

(** ** [MarioExpert.choose_action] *)

(** What [self.environment] answers during one step. *)
Record environment : Type := {
  game_area : grid;
  get_x_position : Z;
  get_world : Z;
  get_stage : Z
}.

(** The module-level variables. *)
Record globals : Type := {
  row : Z;
  col : Z;
  prev_x : Z;
  curr_x : Z;
  prev_action : Action;
  next_action : Action
}.

Definition initial : globals :=
  {| row := 0; col := 0; prev_x := 0; curr_x := 0;
     prev_action := RIGHT; next_action := RIGHT |}.

(** [enemy_type == v], where [enemy_type] may be [None] *)
Definition type_is (enemy_type : option Z) (v : Z) : bool :=
  match enemy_type with
  | Some t => t =? v
  | None => false
  end.

(** The branch [# PROCESS GUMBAS]. *)
Definition process_gumbas (prev_action : Action) (enemy_dist : dist) : Action :=
  if Action_eqb prev_action RIGHT then JUMP
  else if Action_eqb prev_action ENEMY_LEFT
          && dist_ltb enemy_dist 2 && negb (dist_leb enemy_dist 1.5)
  then JUMP_SKIP_ENEMY
  else if Action_eqb prev_action ENEMY_LEFT && negb (dist_ltb enemy_dist 1.5)
  then JUMP
  else if Action_eqb prev_action JUMP then
    if dist_ltb enemy_dist 5 then ENEMY_LEFT else JUMP_RIGHT
  else JUMP.

(** The branch [# IF TOO CLOSE TO AN ENEMY, REACT]. *)
Definition react_to_enemy (prev_action : Action) (enemy_dist : dist)
    (enemy_type : option Z) (enemy_row row : Z) : Action :=
  if type_is enemy_type Element.GUMBA then process_gumbas prev_action enemy_dist
  else if type_is enemy_type Element.TOAD && dist_leb enemy_dist 4 then
    if Action_eqb prev_action JUMP then LEFT else JUMP
  else if type_is enemy_type Element.FLY && dist_leb enemy_dist 3 then
    if Action_eqb prev_action JUMP then LEFT else JUMP
  else if type_is enemy_type Element.ARCHER && dist_leb enemy_dist 4
          && (enemy_row =? row) then
    if Action_eqb prev_action JUMP then LEFT else JUMP
  else RIGHT.

(** The branch [# CHECK EMPTY JUMP (PLATFORMS, OR HOLES)]. *)
Definition jump_empty (env : environment) (prev_action : Action) (curr_x : Z)
  : Action :=
  if (2282 <=? curr_x) && (curr_x <=? 2286)
     && (get_stage env =? 1) && (get_world env =? 1) then UP
  else if (get_world env =? 1) && (get_stage env =? 2) then JUMP_EMPTY_REDUCED
  else if Action_eqb prev_action JUMP_EMPTY
          || Action_eqb prev_action JUMP_BIG_GAP
          || Action_eqb prev_action JUMP_EMPTY_REDUCED then LEFT
  else if Action_eqb prev_action UP then JUMP_BIG_GAP
  else JUMP_EMPTY.

(** The branch [# JUMP TO COLLECT POWER UP BOXES]. *)
Definition collect_power_up (prev_action : Action) : Action :=
  if Action_eqb prev_action JUMP_POWER_UP then RIGHT
  else if Action_eqb prev_action JUMP then UP
  else JUMP_POWER_UP.

(** The branch [# JUMP OVER OBSTACLES]. *)
Definition jump_obstacle (prev_action : Action) (prev_x curr_x : Z)
    (obstacle_check : obstacle) : Action :=
  if (prev_x =? curr_x)
     && match obstacle_check with found_stairs => true | _ => false end
  then JUMP_STAIRS
  else if Action_eqb prev_action JUMP_OBS then RIGHT
  else JUMP_OBS.

(** The [if]/[elif] chain that assigns [curr_action], before the
    [# fix up stuck condition] statement.  The cell [game_area[row+2][col]]
    is read by the pipe test; the enemy-below test reads the same cell of
    the same array again, so the value read first is used there. *)
Definition rules (env : environment) (prev_action : Action) (prev_x curr_x : Z)
    (row col enemy_row enemy_col : Z) (enemy_dist : dist)
    (enemy_type : option Z) (obstacle_check : obstacle) : res Action :=
  if row <? 14 then
    below <- get (game_area env) (row + 2) col ;;
    if below =? Element.PIPE then
      if Action_in prev_action [JUMP; JUMP_EMPTY; JUMP_OBS; JUMP_POWER_UP]
      then Ok UP
      else Ok JUMP_RIGHT
    else if (enemy_row <? row) && (enemy_col >? col) && dist_ltb enemy_dist 6.0
    then Ok LEFT
    else if (row + 2 <=? enemy_row) && negb (enemy_row =? 0)
            && Action_in prev_action [RIGHT]
            && (negb (below =? Element.EMPTY) && dist_ltb enemy_dist 7)
    then Ok JUMP_EMPTY
    else if dist_leb enemy_dist 4.5
    then Ok (react_to_enemy prev_action enemy_dist enemy_type enemy_row row)
    else
      gap <- check_empty_jump row col (game_area env) ;;
      if gap : bool then Ok (jump_empty env prev_action curr_x)
      else
        power_up <- check_power_up row col (game_area env) ;;
        match power_up with
        | Some true => Ok (collect_power_up prev_action)
        | _ =>
            match obstacle_check with
            | obstacle_found | found_stairs =>
                Ok (jump_obstacle prev_action prev_x curr_x obstacle_check)
            | no_obstacle => if row =? 0 then Ok UP else Ok RIGHT
            end
        end
  else Ok UP.

(** [# fix up stuck condition] *)
Definition fix_up_stuck (prev_action curr_action : Action) : Action :=
  if Action_eqb prev_action UP && Action_eqb curr_action UP then RIGHT
  else curr_action.

(** The body of [choose_action] down to the end of the [if]/[elif] chain:
    the position found for Mario and the action assigned to [curr_action]. *)
Definition evaluate (env : environment) (G : globals) : res (Z * Z * Action) :=
  '(row, col) <- find_mario (game_area env) ;;
  '(enemy_row, enemy_col) <- find_enemy (game_area env) ;;
  let curr_x := get_x_position env in
  '(enemy_dist, enemy_type) <- get_enemy_dist row col (game_area env) ;;
  obstacle_check <- check_obstacle row col (game_area env) ;;
  curr_action <- rules env (prev_action G) (prev_x G) curr_x row col
                       enemy_row enemy_col enemy_dist enemy_type
                       obstacle_check ;;
  Ok (row, col, curr_action).

(** One call: the value returned and the globals it leaves. *)
Definition choose_action (env : environment) (G : globals)
  : res (Z * globals) :=
  '(row, col, curr_action) <- evaluate env G ;;
  let curr_action := fix_up_stuck (prev_action G) curr_action in
  Ok (value curr_action,
      {| row := row; col := col;
         prev_x := get_x_position env; curr_x := get_x_position env;
         prev_action := curr_action; next_action := next_action G |}).

(** Successive calls of [choose_action], one per sampled environment, as in
    the loop of [play]: the values returned, in order. *)
Fixpoint steps (G : globals) (envs : list environment)
  : res (list Z * globals) :=
  match envs with
  | [] => Ok ([], G)
  | env :: envs' =>
      '(v, G') <- choose_action env G ;;
      '(vs, G'') <- steps G' envs' ;;
      Ok (v :: vs, G'')
  end.

(** ** [MarioController.run_action] *)

Inductive button : Set :=
| ARROW_DOWN | ARROW_LEFT | ARROW_RIGHT | ARROW_UP | BUTTON_A | BUTTON_B.

(** [WindowEvent.PRESS_...] and [WindowEvent.RELEASE_...] *)
Inductive WindowEvent : Set :=
| PRESS (b : button)
| RELEASE (b : button).

Definition valid_actions : list WindowEvent :=
  [PRESS ARROW_DOWN; PRESS ARROW_LEFT; PRESS ARROW_RIGHT; PRESS ARROW_UP;
   PRESS BUTTON_A; PRESS BUTTON_B].

Definition release_button : list WindowEvent :=
  [RELEASE ARROW_DOWN; RELEASE ARROW_LEFT; RELEASE ARROW_RIGHT;
   RELEASE ARROW_UP; RELEASE BUTTON_A; RELEASE BUTTON_B].

(** [l[i]] on a Python list *)
Definition item {A : Type} (l : list A) (i : Z) : res A :=
  j <- index i (length l) ;;
  match nth_error l (Z.to_nat j) with
  | Some a => Ok a
  | None => IndexError
  end.

(** The calls made on [self.pyboy]. *)
Inductive call : Set :=
| send_input (e : WindowEvent)
| tick.

(** [for _ in range(n): self.pyboy.tick()] *)
Definition ticks (n : nat) : list call := repeat tick n.

(** The branches of [run_action]: the calls they make, in order, and the
    value they leave in [action].  The only subscript that can be out of
    range is [self.valid_actions[action]] in the last branch, which is
    evaluated before any call is made; the subscripts by a member of
    [Action] are written with their result.  [int(act_freq * 0.2)] is
    [act_freq / 5]. *)
Definition recipe (act_freq : nat) (action : Z) : res (list call * Z) :=
  let press a := nth (Z.to_nat (value a)) valid_actions (PRESS ARROW_DOWN) in
  let release a :=
    nth (Z.to_nat (value a)) release_button (RELEASE ARROW_DOWN) in
  if action =? value JUMP_OBS then
    Ok ([send_input (press JUMP)] ++ ticks (act_freq * 10), value JUMP)
  else if action =? value JUMP_POWER_UP then
    Ok ([send_input (press JUMP)] ++ ticks act_freq, value JUMP)
  else if action =? value JUMP_EMPTY then
    Ok ([send_input (press JUMP); send_input (press RIGHT)]
        ++ ticks (act_freq * 5)
        ++ [send_input (release JUMP)], value RIGHT)
  else if action =? value JUMP_BIG_GAP then
    Ok ([send_input (press JUMP)]
        ++ ticks (act_freq * 10)
        ++ [send_input (release JUMP)], value RIGHT)
  else if action =? value ENEMY_LEFT then
    Ok ([send_input (press LEFT)] ++ ticks act_freq, value LEFT)
  else if action =? value TUNNEL_LEFT then
    Ok ([send_input (press LEFT)] ++ ticks (act_freq * 2), value LEFT)
  else if action =? value JUMP_SKIP_ENEMY then
    Ok ([send_input (press JUMP); send_input (press RIGHT)]
        ++ ticks (act_freq * 2)
        ++ [send_input (release RIGHT)], value JUMP)
  else if action =? value JUMP_RIGHT then
    Ok ([send_input (press JUMP); send_input (press RIGHT)]
        ++ ticks act_freq
        ++ [send_input (release RIGHT)], value JUMP)
  else if action =? value JUMP_STAIRS then
    Ok ([send_input (press LEFT)]
        ++ ticks (act_freq / 5)
        ++ [send_input (release LEFT); send_input (press RIGHT)]
        ++ ticks act_freq
        ++ [send_input (press JUMP)]
        ++ ticks act_freq
        ++ [send_input (release JUMP)], value RIGHT)
  else if action =? value JUMP_EMPTY_REDUCED then
    Ok ([send_input (press JUMP); send_input (press RIGHT)]
        ++ ticks (act_freq * 1)
        ++ [send_input (release JUMP)], value RIGHT)
  else
    e <- item valid_actions action ;;
    Ok ([send_input e] ++ ticks act_freq, action).

(** [run_action]: a branch, then
    [self.pyboy.send_input(self.release_button[action])]. *)
Definition run_action (act_freq : nat) (action : Z) : res (list call) :=
  '(calls, action) <- recipe act_freq action ;;
  e <- item release_button action ;;
  Ok (calls ++ [send_input e]).

Definition button_eqb (a b : button) : bool :=
  match a, b with
  | ARROW_DOWN, ARROW_DOWN | ARROW_LEFT, ARROW_LEFT
  | ARROW_RIGHT, ARROW_RIGHT | ARROW_UP, ARROW_UP
  | BUTTON_A, BUTTON_A | BUTTON_B, BUTTON_B => true
  | _, _ => false
  end.

(** The inputs that are held. *)
Definition held : Type := button -> bool.

Definition nothing_held : held := fun _ => false.

(** Modelled from the spec: the actuator behind [self.pyboy.send_input]
    and [self.pyboy.tick] (the emulator is not part of the repository).
    Holding sets an input and releasing clears it, so that holding a held
    input and releasing a released one change nothing; a tick leaves the
    inputs as they are. *)
Definition actuate (c : call) (h : held) : held :=
  match c with
  | send_input (PRESS b) => fun b' => if button_eqb b b' then true else h b'
  | send_input (RELEASE b) => fun b' => if button_eqb b b' then false else h b'
  | tick => h
  end.

Definition actuate_all (cs : list call) (h : held) : held :=
  fold_left (fun h c => actuate c h) cs h.

(** ** Vocabulary of the properties *)

(** [(a, b)] is a cell of the grid. *)
Definition in_grid (g : grid) (a b : Z) : Prop :=
  0 <= a < Z.of_nat (fst (shape g)) /\ 0 <= b < Z.of_nat (snd (shape g)).

(** A scan by columns, left to right and top to bottom in each, visits
    [(a', b')] before [(a, b)]. *)
Definition column_before (a' b' a b : Z) : Prop :=
  b' < b \/ (b' = b /\ a' < a).

(** A scan by rows, top to bottom and left to right in each, visits
    [(a', b')] before [(a, b)]. *)
Definition row_before (a' b' a b : Z) : Prop :=
  a' < a \/ (a' = a /\ b' < b).

(** A hostile cell whose column is not left of [col]. *)
Definition hostile_ahead (g : grid) (col a b : Z) : Prop :=
  in_grid g a b /\ 15 <= tile g a b /\ col <= b.

Definition first_hostile_ahead (g : grid) (col a b : Z) : Prop :=
  hostile_ahead g col a b /\
  forall a' b', hostile_ahead g col a' b' -> ~ column_before a' b' a b.

(** The three cells left of [(a, b)] in its row are cells of the grid and
    all hold [v]. *)
Definition three_left (g : grid) (a b v : Z) : Prop :=
  0 <= b - 3 /\
  tile g a (b - 1) = v /\ tile g a (b - 2) = v /\ tile g a (b - 3) = v.

(** The cell in column [b], two rows below the agent, is a gap ahead: it
    is EMPTY and strictly right of the agent, its three left neighbours are
    all GROUND or all BLOCK, and it lies within 2.9 of the agent. *)
Definition gap_at (g : grid) (row col b : Z) : Prop :=
  in_grid g (row + 2) b /\ col < b /\
  tile g (row + 2) b = Element.EMPTY /\
  (three_left g (row + 2) b Element.GROUND \/
   three_left g (row + 2) b Element.BLOCK) /\
  dist_leb (get_distance row col (row + 2) b) 2.9 = true.

(** A POWERUP cell above or level with the agent, in a column not left of
    the agent's. *)
Definition power_up_ahead (g : grid) (row col a b : Z) : Prop :=
  in_grid g a b /\ tile g a b = Element.POWERUP /\ a <= row /\ col <= b.

Definition first_power_up_ahead (g : grid) (row col a b : Z) : Prop :=
  power_up_ahead g row col a b /\
  forall a' b', power_up_ahead g row col a' b' -> ~ column_before a' b' a b.

(** The cell two rows below the agent is a GROUND cell of the grid. *)
Definition ground_below (g : grid) (row col : Z) : Prop :=
  in_grid g (row + 2) col /\ tile g (row + 2) col = Element.GROUND.

(** The condition under which the specification has [check_power_up]
    answer true: some POWERUP cell above or level and to the right within
    3.0, the agent ground-stable, GROUND two rows below. *)
Definition collectible_above (g : grid) (row col : Z) : Prop :=
  (exists a b, power_up_ahead g row col a b /\
               dist_leb (get_distance row col a b) 3.0 = true) /\
  check_on_ground row col g = Ok true /\
  ground_below g row col.

(** The cell two rows below the agent is a cell of the grid and holds
    [v]. *)
Definition cell_below (g : grid) (row col v : Z) : Prop :=
  in_grid g (row + 2) col /\ tile g (row + 2) col = v.

(** [(a, b)] is the first cell holding [v] in the order of a scan by rows. *)
Definition first_in_rows (g : grid) (v a b : Z) : Prop :=
  in_grid g a b /\ tile g a b = v /\
  forall a' b', in_grid g a' b' -> tile g a' b' = v -> ~ row_before a' b' a b.

(** A test that holds of every cell of the grid. *)
Definition all_cells (g : grid) (P : Z -> Z -> bool) : bool :=
  forallb (fun a => forallb (fun b => P a b) (range (snd (shape g))))
          (range (fst (shape g))).

(** The test that no cell holding [v] is visited by a scan by rows before
    [(a, b)]. *)
Definition none_before_in_rows (g : grid) (v a b : Z) : bool :=
  all_cells g (fun a' b' =>
    negb (tile g a' b' =? v) || negb ((a' <? a) || ((a' =? a) && (b' <? b)))).

(** A call of [choose_action] returns the value of [a] and records [a] as
    the previous action. *)
Definition emits (env : environment) (G : globals) (a : Action) : Prop :=
  exists G', choose_action env G = Ok (value a, G') /\ prev_action G' = a.

(** The members of [Action] that jump. *)
Definition jump_variant (a : Action) : bool :=
  match a with
  | JUMP | JUMP_OBS | JUMP_EMPTY | JUMP_POWER_UP | JUMP_SKIP_ENEMY
  | JUMP_RIGHT | JUMP_STAIRS | JUMP_BIG_GAP | JUMP_EMPTY_REDUCED => true
  | _ => false
  end.

(** The action whose input is still to be released when a recipe ends. *)
Definition remaining (a : Action) : Action :=
  match a with
  | JUMP_OBS | JUMP_POWER_UP | JUMP_SKIP_ENEMY | JUMP_RIGHT => JUMP
  | JUMP_EMPTY | JUMP_BIG_GAP | JUMP_STAIRS | JUMP_EMPTY_REDUCED => RIGHT
  | ENEMY_LEFT | TUNNEL_LEFT => LEFT
  | a => a
  end.

(** The input of each of the six plain actions. *)
Definition input_of (a : Action) : option button :=
  match a with
  | DOWN => Some ARROW_DOWN
  | LEFT => Some ARROW_LEFT
  | RIGHT => Some ARROW_RIGHT
  | UP => Some ARROW_UP
  | JUMP => Some BUTTON_A
  | PRESS_B => Some BUTTON_B
  | _ => None
  end.

(** A hostile cell strictly above the agent and ahead of it, within 6.0. *)
Definition hostile_above (g : grid) (row col : Z) : Prop :=
  exists a b, in_grid g a b /\ 15 <= tile g a b /\ a < row /\ col < b /\
              dist_ltb (get_distance row col a b) 6.0 = true.

(** A hostile cell at or below the agent's level and ahead of it, within 7. *)
Definition hostile_level_or_below (g : grid) (row col : Z) : Prop :=
  exists a b, in_grid g a b /\ 15 <= tile g a b /\ row <= a /\ col <= b /\
              dist_ltb (get_distance row col a b) 7 = true.

(** The value [v] occurs twice in a row in [vs]. *)
Definition twice_in_a_row (v : Z) (vs : list Z) : Prop :=
  exists l1 l2, vs = l1 ++ v :: v :: l2.

(** ** Game areas of the examples

    All are 16 rows of 20 columns; Mario covers two rows and two columns. *)

Definition blank (x y : nat) : grid := repeat (repeat 0 y) x.

Fixpoint change {A : Type} (n : nat) (f : A -> A) (l : list A) : list A :=
  match l, n with
  | [], _ => []
  | a :: l', O => f a :: l'
  | a :: l', S n' => a :: change n' f l'
  end.

(** The grid with [v] in the cells of row [a], columns [b] to [b + n - 1]. *)
Definition put (a b n : nat) (v : Z) (g : grid) : grid :=
  change a (fun r => firstn b r ++ repeat v (min n (length r - b))
                     ++ skipn (b + n) r) g.

(** Mario with his top left cell at [(a, b)]. *)
Definition mario (a b : nat) (g : grid) : grid :=
  put a b 2 1 (put (S a) b 2 1 g).

(** Two rows of ground at the bottom of the screen. *)
Definition floor : grid :=
  put 14 0 20 Element.GROUND (put 15 0 20 Element.GROUND (blank 16 20)).

(** Mario falls into a pit: his feet are in the bottom row, with ground
    left and right of him in that row. *)
Definition falling : grid :=
  mario 14 5 (put 15 0 20 Element.GROUND (blank 16 20)).

(** Mario stands at the right edge of the screen, his top left cell in the
    last column. *)
Definition at_right_edge : grid := mario 12 19 floor.

(** Mario stands on a pipe two columns wide. *)
Definition on_pipe : grid :=
  mario 10 4 (put 12 4 2 Element.PIPE (put 13 4 2 Element.PIPE floor)).

(** A basic enemy two columns ahead of Mario, on his level. *)
Definition gumba_level : grid :=
  mario 10 4 (put 10 7 1 Element.GUMBA
    (put 12 0 20 Element.GROUND (put 13 0 20 Element.GROUND floor))).

(** Mario on a platform of blocks, a basic enemy ahead on the ground below. *)
Definition gumba_below : grid :=
  mario 8 4 (put 10 3 5 Element.BLOCK (put 13 8 1 Element.GUMBA floor)).

(** Two power-up boxes ahead of Mario: one high up in the next column, one
    just above him a column further. *)
Definition two_power_ups : grid :=
  mario 12 5 (put 2 7 1 Element.POWERUP (put 11 8 1 Element.POWERUP floor)).

(** One power-up box just above and ahead of Mario. *)
Definition one_power_up : grid :=
  mario 12 5 (put 11 8 1 Element.POWERUP floor).

(** Mario at the left edge of the screen on two cells of ground, a hole
    from column 2 to column 18 and ground again in the last column. *)
Definition hole_at_left_edge : grid :=
  mario 12 0 (put 14 0 2 Element.GROUND (put 14 19 1 Element.GROUND
    (put 15 0 20 Element.GROUND (blank 16 20)))).

(** Mario on ground that ends one column ahead of him. *)
Definition hole_ahead : grid :=
  mario 12 5 (put 14 0 8 Element.GROUND (put 15 0 20 Element.GROUND
    (blank 16 20))).

(** The environment of a game area, at position 100 of level 1-1. *)
Definition level_1_1 (g : grid) : environment :=
  {| game_area := g; get_x_position := 100; get_world := 1; get_stage := 1 |}.

(** The globals with another previous action. *)
Definition after (a : Action) : globals :=
  {| row := 0; col := 0; prev_x := 0; curr_x := 0;
     prev_action := a; next_action := RIGHT |}.

(** ** The remaining functions of the module *)

(** [MarioExpert.check_platform_jump] *)
Definition check_platform_jump (row col : Z) (game_area : grid) : res bool :=
  let '(x, y) := shape game_area in
  or_else
    (scan_columns x y (fun a b =>
       v <- get game_area a b ;;
       if v =? Element.BLOCK then
         if (a <? row) && (b >? col) then
           let distance := get_distance row col a b in
           if dist_leb distance 7.0 then Ok (Return true) else Ok Next
         else Ok Next
       else Ok Next))
    false.

(** [MarioExpert.step]: the action chosen is run on the controller, whose
    [act_freq] is a parameter here.  The result is the globals left by
    [choose_action] and the calls made on the emulator. *)
Module MarioExpert.
Definition step (act_freq : nat) (env : environment) (G : globals)
  : res (globals * list call) :=
  '(action, G') <- choose_action env G ;;
  calls <- run_action act_freq action ;;
  Ok (G', calls).
End MarioExpert.

(** ** Vocabulary of the further properties *)

(** [(a, b)] is the first cell holding a value of at least 15 in the order
    of a scan by rows. *)
Definition first_hostile_in_rows (g : grid) (a b : Z) : Prop :=
  in_grid g a b /\ 15 <= tile g a b /\
  forall a' b', in_grid g a' b' -> 15 <= tile g a' b' ->
                ~ row_before a' b' a b.

(** Row [a] holds GROUND in column [col] and in the columns left and right
    of it. *)
Definition ground_row (g : grid) (col a : Z) : Prop :=
  0 <= a < Z.of_nat (fst (shape g)) /\
  tile g a (col - 1) = Element.GROUND /\
  tile g a col = Element.GROUND /\
  tile g a (col + 1) = Element.GROUND.

(** A cell that [check_obstacle] examines: right of the agent and holding
    BLOCK, PIPE, or GROUND no lower than one row below the agent's row. *)
Definition obstacle_cell (g : grid) (row col a b : Z) : Prop :=
  in_grid g a b /\ col < b /\
  (tile g a b = Element.BLOCK \/ tile g a b = Element.PIPE \/
   (tile g a b = Element.GROUND /\ a <= row + 1)).

(** A BLOCK cell strictly above the agent and strictly right of it, within
    7.0. *)
Definition platform_at (g : grid) (row col a b : Z) : Prop :=
  in_grid g a b /\ tile g a b = Element.BLOCK /\ a < row /\ col < b /\
  dist_leb (get_distance row col a b) 7.0 = true.

(** The number of [tick] calls in a list of calls. *)
Fixpoint ticks_in (cs : list call) : nat :=
  match cs with
  | [] => 0
  | tick :: cs' => S (ticks_in cs')
  | send_input _ :: cs' => ticks_in cs'
  end.

(** The actions that the rules can assign. *)
Definition assignable (a : Action) : bool :=
  match a with
  | DOWN | PRESS_B | TUNNEL_LEFT | JUMP_SKIP_ENEMY => false
  | _ => true
  end.

(** The actions that no two successive calls both return. *)
Definition never_repeated : list Action :=
  [JUMP; JUMP_OBS; JUMP_EMPTY; JUMP_POWER_UP; ENEMY_LEFT; JUMP_BIG_GAP].

(** Mario on flat ground, nothing else on the screen. *)
Definition on_floor : grid := mario 12 5 floor.

(** Mario on flat ground under a platform of blocks up and ahead. *)
Definition under_platform : grid :=
  mario 12 5 (put 8 8 3 Element.BLOCK floor).

(** Mario in front of a pipe one column ahead. *)
Definition before_pipe : grid :=
  mario 12 5 (put 12 7 2 Element.PIPE (put 13 7 2 Element.PIPE floor)).

(** Mario at the bottom of the screen, his top left cell in the last row. *)
Definition at_bottom : grid := mario 15 5 (blank 16 20).

(** ** Positions whose distances are floats

    [get_distance] calls [math.sqrt] on an exact integer, which raises
    [OverflowError] when the integer is beyond the range of a float.  The
    properties that say a query returns its distance are stated for the
    positions [find_mario] can return in an array that numpy can hold,
    where no radicand comes near that range. *)

(** The axes of a numpy array are shorter than 2^63. *)
Definition numpy_sized (g : grid) : Prop :=
  Z.of_nat (fst (shape g)) < 2 ^ 63 /\ Z.of_nat (snd (shape g)) < 2 ^ 63.

(** A position of the agent: a row from 0 to the number of rows and a
    column from 0 to the width, the range of the results of [find_mario]. *)
Definition agent_position (g : grid) (row col : Z) : Prop :=
  0 <= row <= Z.of_nat (fst (shape g)) /\
  0 <= col <= Z.of_nat (snd (shape g)).

(** An integer on which [math.sqrt] does not overflow. *)
Definition float_range (n : Z) : Prop := n < 2 ^ 1023.

(** Mario at the right edge of the screen and at its bottom: his top left
    cell in row 14 of the last column. *)
Definition at_right_edge_low : grid := mario 14 19 floor.

(** * Properties *)

(** ** Loops *)

Lemma for_each_seq_Return {R : Type} (f : Z -> res (step R)) (r : R) :
  forall (n s : nat),
    for_each (map Z.of_nat (seq s n)) f = Ok (Return r) <->
    exists i, Z.of_nat s <= i < Z.of_nat (s + n) /\ f i = Ok (Return r) /\
              forall j, Z.of_nat s <= j < i -> f j = Ok Next.
Proof.
  induction n as [|n IH]; intros s; simpl.
  - split; [discriminate|]. intros (i & Hi & _). lia.
  - destruct (f (Z.of_nat s)) as [[|r']|] eqn:Hs; simpl.
    + rewrite IH. split.
      * intros (i & Hi & Hr & Hn). exists i. repeat split; try lia; auto.
        intros j Hj. destruct (Z.eq_dec j (Z.of_nat s)) as [->|]; auto.
        apply Hn. lia.
      * intros (i & Hi & Hr & Hn). exists i.
        assert (i <> Z.of_nat s) by (intros ->; congruence).
        repeat split; try lia; auto. intros j Hj. apply Hn. lia.
    + split.
      * intros [= ->]. exists (Z.of_nat s). repeat split; try lia; auto.
      * intros (i & Hi & Hr & Hn).
        destruct (Z.eq_dec i (Z.of_nat s)) as [->|]; [congruence|].
        rewrite Hn in Hs by lia. discriminate.
    + split; [discriminate|]. intros (i & Hi & Hr & Hn).
      destruct (Z.eq_dec i (Z.of_nat s)) as [->|]; [congruence|].
      rewrite Hn in Hs by lia. discriminate.
Qed.

Lemma for_each_seq_Next {R : Type} (f : Z -> res (step R)) :
  forall (n s : nat),
    for_each (map Z.of_nat (seq s n)) f = Ok Next <->
    forall j, Z.of_nat s <= j < Z.of_nat (s + n) -> f j = Ok Next.
Proof.
  induction n as [|n IH]; intros s; simpl.
  - split; auto. intros _ j Hj. lia.
  - destruct (f (Z.of_nat s)) as [[|r']|] eqn:Hs; simpl.
    + rewrite IH. split.
      * intros Hn j Hj. destruct (Z.eq_dec j (Z.of_nat s)) as [->|]; auto.
        apply Hn. lia.
      * intros Hn j Hj. apply Hn. lia.
    + split; [discriminate|]. intros Hn. rewrite Hn in Hs by lia. discriminate.
    + split; [discriminate|]. intros Hn. rewrite Hn in Hs by lia. discriminate.
Qed.

Lemma for_each_range_Return {R : Type} (f : Z -> res (step R)) (r : R) (n : nat) :
  for_each (range n) f = Ok (Return r) <->
  exists i, 0 <= i < Z.of_nat n /\ f i = Ok (Return r) /\
            forall j, 0 <= j < i -> f j = Ok Next.
Proof. unfold range. rewrite for_each_seq_Return. reflexivity. Qed.

Lemma for_each_range_Next {R : Type} (f : Z -> res (step R)) (n : nat) :
  for_each (range n) f = Ok Next <->
  forall j, 0 <= j < Z.of_nat n -> f j = Ok Next.
Proof. unfold range. rewrite for_each_seq_Next. reflexivity. Qed.

(** A loop whose body never raises does not raise. *)
Lemma for_each_total {R : Type} (f : Z -> res (step R)) (l : list Z) :
  (forall i, In i l -> f i <> IndexError) -> for_each l f <> IndexError.
Proof.
  induction l as [|i l IH]; simpl; intros H; [discriminate|].
  destruct (f i) as [[|r]|] eqn:Hi; simpl.
  - apply IH. intros j Hj. apply H. now right.
  - discriminate.
  - exfalso. apply (H i); auto.
Qed.

Lemma in_range (i : Z) (n : nat) : In i (range n) <-> 0 <= i < Z.of_nat n.
Proof.
  unfold range. rewrite in_map_iff. split.
  - intros (k & <- & Hk). apply in_seq in Hk. lia.
  - intros Hi. exists (Z.to_nat i). split; [lia|]. apply in_seq. lia.
Qed.

(** The first cell, in the order of a column-by-column scan, that makes the
    body return. *)
Lemma scan_columns_Return {R : Type} (body : Z -> Z -> res (step R)) (r : R)
    (x y : nat) :
  scan_columns x y body = Ok (Return r) <->
  exists a b, 0 <= a < Z.of_nat x /\ 0 <= b < Z.of_nat y /\
    body a b = Ok (Return r) /\
    (forall a', 0 <= a' < a -> body a' b = Ok Next) /\
    (forall a' b', 0 <= a' < Z.of_nat x -> 0 <= b' < b -> body a' b' = Ok Next).
Proof.
  unfold scan_columns. rewrite for_each_range_Return. split.
  - intros (b & Hb & Hr & Hn). apply for_each_range_Return in Hr.
    destruct Hr as (a & Ha & Hr & Hn'). exists a, b. repeat split; auto; try lia.
    intros a' b' Ha' Hb'. specialize (Hn b' Hb').
    rewrite for_each_range_Next in Hn. auto.
  - intros (a & b & Ha & Hb & Hr & Hn' & Hn). exists b. repeat split; try lia.
    + apply for_each_range_Return. exists a. auto.
    + intros b' Hb'. apply for_each_range_Next. intros a' Ha'. apply Hn; lia.
Qed.

Lemma scan_columns_Next {R : Type} (body : Z -> Z -> res (step R)) (x y : nat) :
  scan_columns x y body = Ok Next <->
  forall a b, 0 <= a < Z.of_nat x -> 0 <= b < Z.of_nat y -> body a b = Ok Next.
Proof.
  unfold scan_columns. rewrite for_each_range_Next. split.
  - intros H a b Ha Hb. specialize (H b Hb).
    rewrite for_each_range_Next in H. auto.
  - intros H b Hb. apply for_each_range_Next. auto.
Qed.

Lemma scan_columns_total {R : Type} (body : Z -> Z -> res (step R)) (x y : nat) :
  (forall a b, 0 <= a < Z.of_nat x -> 0 <= b < Z.of_nat y ->
               body a b <> IndexError) ->
  scan_columns x y body <> IndexError.
Proof.
  intros H. unfold scan_columns. apply for_each_total. intros b Hb.
  apply for_each_total. intros a Ha. apply in_range in Ha, Hb. auto.
Qed.

(** The same for a row-by-row scan. *)
Lemma scan_rows_Return {R : Type} (body : Z -> Z -> res (step R)) (r : R)
    (x y : nat) :
  scan_rows x y body = Ok (Return r) <->
  exists a b, 0 <= a < Z.of_nat x /\ 0 <= b < Z.of_nat y /\
    body a b = Ok (Return r) /\
    (forall b', 0 <= b' < b -> body a b' = Ok Next) /\
    (forall a' b', 0 <= a' < a -> 0 <= b' < Z.of_nat y -> body a' b' = Ok Next).
Proof.
  unfold scan_rows. rewrite for_each_range_Return. split.
  - intros (a & Ha & Hr & Hn). apply for_each_range_Return in Hr.
    destruct Hr as (b & Hb & Hr & Hn'). exists a, b. repeat split; auto; try lia.
    intros a' b' Ha' Hb'. specialize (Hn a' Ha').
    rewrite for_each_range_Next in Hn. auto.
  - intros (a & b & Ha & Hb & Hr & Hn' & Hn). exists a. repeat split; try lia.
    + apply for_each_range_Return. exists b. auto.
    + intros a' Ha'. apply for_each_range_Next. intros b' Hb'. apply Hn; lia.
Qed.

Lemma scan_rows_Next {R : Type} (body : Z -> Z -> res (step R)) (x y : nat) :
  scan_rows x y body = Ok Next <->
  forall a b, 0 <= a < Z.of_nat x -> 0 <= b < Z.of_nat y -> body a b = Ok Next.
Proof.
  unfold scan_rows. rewrite for_each_range_Next. split.
  - intros H a b Ha Hb. specialize (H a Ha).
    rewrite for_each_range_Next in H. auto.
  - intros H a Ha. apply for_each_range_Next. auto.
Qed.

Lemma scan_rows_total {R : Type} (body : Z -> Z -> res (step R)) (x y : nat) :
  (forall a b, 0 <= a < Z.of_nat x -> 0 <= b < Z.of_nat y ->
               body a b <> IndexError) ->
  scan_rows x y body <> IndexError.
Proof.
  intros H. unfold scan_rows. apply for_each_total. intros a Ha.
  apply for_each_total. intros b Hb. apply in_range in Ha, Hb. auto.
Qed.

Lemma or_else_Ok {R : Type} (loop : res (step R)) (d v : R) :
  or_else loop d = Ok v <->
  loop = Ok (Return v) \/ (loop = Ok Next /\ v = d).
Proof.
  unfold or_else. destruct loop as [[|r]|]; simpl; split.
  - intros [= <-]. auto.
  - intros [H|[_ ->]]; [discriminate|reflexivity].
  - intros [= <-]. auto.
  - intros [[= ->]|[H _]]; [reflexivity|discriminate].
  - discriminate.
  - intros [H|[H _]]; discriminate.
Qed.

Lemma or_else_total {R : Type} (loop : res (step R)) (d : R) :
  loop <> IndexError -> or_else loop d <> IndexError.
Proof. destruct loop as [[|r]|]; simpl; congruence. Qed.

(** ** Subscripts *)

Lemma index_in_range (i : Z) (n : nat) :
  0 <= i < Z.of_nat n -> index i n = Ok i.
Proof.
  intros H. unfold index.
  destruct (Z.leb_spec 0 i); destruct (Z.ltb_spec i (Z.of_nat n)); simpl;
    auto; lia.
Qed.

Lemma index_past_end (i : Z) (n : nat) :
  Z.of_nat n <= i -> index i n = IndexError.
Proof.
  intros H. unfold index.
  destruct (Z.leb_spec 0 i); destruct (Z.ltb_spec i (Z.of_nat n));
    destruct (Z.leb_spec (- Z.of_nat n) i); destruct (Z.ltb_spec i 0); simpl;
    auto; lia.
Qed.

Lemma get_in_range (g : grid) (a b : Z) :
  0 <= a < Z.of_nat (fst (shape g)) -> 0 <= b < Z.of_nat (snd (shape g)) ->
  get g a b = Ok (tile g a b).
Proof.
  intros Ha Hb. unfold get. simpl in *.
  rewrite index_in_range by assumption. simpl.
  rewrite index_in_range by assumption. reflexivity.
Qed.

Lemma get_past_last_column (g : grid) (a b : Z) :
  Z.of_nat (snd (shape g)) <= b -> get g a b = IndexError.
Proof.
  intros Hb. unfold get. simpl in *.
  destruct (index a (length g)); simpl; auto.
  rewrite index_past_end by assumption. reflexivity.
Qed.

Lemma get_past_last_row (g : grid) (a b : Z) :
  Z.of_nat (fst (shape g)) <= a -> get g a b = IndexError.
Proof.
  intros Ha. unfold get. simpl in *.
  rewrite index_past_end by assumption. reflexivity.
Qed.

(** ** [get_enemy_dist] *)

Ltac grid_lia := unfold in_grid, shape in *; cbn [fst snd] in *; lia.

Ltac range_side := first [assumption | grid_lia].

Ltac in_range_get :=
  repeat match goal with
  | |- context [get ?g ?a ?b] =>
      rewrite (get_in_range g a b) by range_side; cbn [bind]
  | H : context [get ?g ?a ?b] |- _ =>
      rewrite (get_in_range g a b) in H by range_side; cbn [bind] in H
  end.

Lemma get_enemy_dist_total (row col : Z) (g : grid) :
  get_enemy_dist row col g <> IndexError.
Proof.
  unfold get_enemy_dist. simpl. apply or_else_total, scan_columns_total.
  intros a b Ha Hb. in_range_get.
  destruct (tile g a b >=? 15); [|discriminate].
  destruct (b >=? col); discriminate.
Qed.

(** The two results of [get_enemy_dist]. *)
Lemma get_enemy_dist_cases (row col : Z) (g : grid) :
  (exists a b,
      first_hostile_ahead g col a b /\
      get_enemy_dist row col g
      = Ok (get_distance row col a b, Some (tile g a b))) \/
  ((forall a b, ~ hostile_ahead g col a b) /\
   get_enemy_dist row col g = Ok (Sqrt (10000 * 10000), None)).
Proof.
  pose proof (get_enemy_dist_total row col g) as Htot.
  unfold get_enemy_dist in *. simpl in *.
  set (body := fun a b : Z => _) in *.
  assert (Hbody : forall a b, in_grid g a b ->
            body a b = if (15 <=? tile g a b) && (col <=? b)
                       then Ok (Return (get_distance row col a b,
                                        Some (tile g a b)))
                       else Ok Next).
  { intros a b [Ha Hb]. unfold body. in_range_get.
    rewrite !Z.geb_leb.
    destruct (15 <=? tile g a b); reflexivity. }
  destruct (scan_columns (length g) (length (hd [] g)) body)
    as [[|r]|] eqn:Hscan.
  - right. split; [|reflexivity].
    rewrite scan_columns_Next in Hscan.
    intros a b (Hin & Hv & Hc). pose proof Hin as [Ha Hb].
    specialize (Hscan a b Ha Hb). rewrite Hbody in Hscan by assumption.
    destruct (Z.leb_spec 15 (tile g a b)); [|lia].
    destruct (Z.leb_spec col b); [|lia]. discriminate.
  - left. apply scan_columns_Return in Hscan.
    destruct Hscan as (a & b & Ha & Hb & Hr & Hup & Hleft).
    assert (Hin : in_grid g a b) by (split; assumption).
    rewrite Hbody in Hr by assumption.
    destruct (Z.leb_spec 15 (tile g a b)); [|discriminate].
    destruct (Z.leb_spec col b); [|discriminate].
    simpl in Hr. injection Hr as <-. exists a, b. split; [|reflexivity].
    split; [repeat split; auto; apply Hin|].
    intros a' b' (Hin' & Hv' & Hc') [Hlt|[-> Hlt]].
    + assert (E : body a' b' = Ok Next) by (apply Hleft; [apply Hin'|]; destruct Hin'; lia).
      rewrite Hbody in E by assumption.
      destruct (Z.leb_spec 15 (tile g a' b')); [|lia].
      destruct (Z.leb_spec col b'); [|lia]. discriminate.
    + assert (E : body a' b = Ok Next) by (apply Hup; destruct Hin'; lia).
      rewrite Hbody in E by assumption.
      destruct (Z.leb_spec 15 (tile g a' b)); [|lia].
      destruct (Z.leb_spec col b); [|lia]. discriminate.
  - exfalso. apply Htot. reflexivity.
Qed.

(** No radicand of a distance between an agent position and a cell of an
    array that numpy can hold is out of the range of a float. *)
Lemma distance_in_float_range (g : grid) (row col a b : Z) :
  numpy_sized g -> agent_position g row col -> in_grid g a b ->
  float_range ((b - col) * (b - col) + (a - row) * (a - row)).
Proof.
  unfold numpy_sized, agent_position, in_grid, float_range.
  intros [Hx Hy] [Hr Hc] [Ha Hb].
  assert (H63 : 2 ^ 63 = 9223372036854775808) by reflexivity.
  assert (Hbig : 9223372036854775808 * 9223372036854775808 * 2 < 2 ^ 1023)
    by reflexivity.
  assert ((b - col) * (b - col)
          <= 9223372036854775808 * 9223372036854775808) by nia.
  assert ((a - row) * (a - row)
          <= 9223372036854775808 * 9223372036854775808) by nia.
  lia.
Qed.

(** C4. For every grid that numpy can hold and every position of the
    agent, [get_enemy_dist] returns.  It returns the first cell, scanning
    the columns from left to right and each column from top to bottom,
    that holds a value of at least 15 in a column not left of the agent's,
    as the pair of the square root of
    [(b - col) * (b - col) + (a - row) * (a - row)], its Euclidean distance
    to the agent, and its value; it never returns a cell left of the
    agent's column; when there is no such cell it returns the distance
    10000 and [None]. *)
Theorem get_enemy_dist_first_ahead (row col : Z) (g : grid) :
  numpy_sized g -> agent_position g row col ->
  (exists a b,
      first_hostile_ahead g col a b /\
      float_range ((b - col) * (b - col) + (a - row) * (a - row)) /\
      get_enemy_dist row col g
      = Ok (Sqrt ((b - col) * (b - col) + (a - row) * (a - row)),
            Some (tile g a b))) \/
  ((forall a b, ~ hostile_ahead g col a b) /\
   get_enemy_dist row col g = Ok (Sqrt (10000 * 10000), None)).
Proof.
  intros Hsize Hpos.
  destruct (get_enemy_dist_cases row col g) as [(a & b & Hfirst & E)|H];
    [left|right; exact H].
  exists a, b. split; [assumption|]. split; [|exact E].
  apply (distance_in_float_range g); try assumption. apply Hfirst.
Qed.

(** ** [check_empty_jump] *)

(** With the agent in column 2 or further right, every cell the body
    reads is a cell of the grid, and the body is one test. *)
Lemma check_empty_jump_body (row col : Z) (g : grid) (a b : Z) :
  2 <= col -> in_grid g a b ->
  (v <- get g a b ;;
   if (v =? Element.EMPTY) && (a =? row + 2) && (b >? col) then
     l1 <- get g a (b - 1) ;;
     ground <- (if l1 =? Element.GROUND then
                  l2 <- get g a (b - 2) ;;
                  if l2 =? Element.GROUND then
                    l3 <- get g a (b - 3) ;;
                    Ok (l3 =? Element.GROUND)
                  else Ok false
                else Ok false) ;;
     wide <- (if ground : bool then Ok true
              else
                l1 <- get g a (b - 1) ;;
                if l1 =? Element.BLOCK then
                  l2 <- get g a (b - 2) ;;
                  if l2 =? Element.BLOCK then
                    l3 <- get g a (b - 3) ;;
                    Ok (l3 =? Element.BLOCK)
                  else Ok false
                else Ok false) ;;
     if wide : bool then
       let distance := get_distance row col a b in
       if dist_leb distance 2.9 then Ok (Return true) else Ok Next
     else Ok Next
   else Ok Next)
  = if (tile g a b =? Element.EMPTY) && (a =? row + 2) && (col <? b)
       && (((tile g a (b - 1) =? Element.GROUND)
            && (tile g a (b - 2) =? Element.GROUND)
            && (tile g a (b - 3) =? Element.GROUND))
           || ((tile g a (b - 1) =? Element.BLOCK)
               && (tile g a (b - 2) =? Element.BLOCK)
               && (tile g a (b - 3) =? Element.BLOCK)))
       && dist_leb (get_distance row col a b) 2.9
    then Ok (Return true) else Ok Next.
Proof.
  intros Hcol Hin. in_range_get. rewrite Z.gtb_ltb.
  destruct (tile g a b =? Element.EMPTY); cbn [andb]; [|reflexivity].
  destruct (a =? row + 2); cbn [andb]; [|reflexivity].
  destruct (Z.ltb_spec col b); cbn [andb]; [|reflexivity].
  in_range_get.
  destruct (tile g a (b - 1) =? Element.GROUND);
    destruct (tile g a (b - 2) =? Element.GROUND);
    destruct (tile g a (b - 3) =? Element.GROUND);
    destruct (tile g a (b - 1) =? Element.BLOCK);
    destruct (tile g a (b - 2) =? Element.BLOCK);
    destruct (tile g a (b - 3) =? Element.BLOCK);
    cbn [andb orb bind]; 
    destruct (dist_leb (get_distance row col a b) 2.9); reflexivity.
Qed.

Lemma three_left_spec (g : grid) (a b v : Z) :
  3 <= b ->
  (tile g a (b - 1) =? v) && (tile g a (b - 2) =? v) && (tile g a (b - 3) =? v)
  = true <-> three_left g a b v.
Proof.
  intros Hb. unfold three_left. rewrite !andb_true_iff, !Z.eqb_eq.
  intuition lia.
Qed.

(** X18. With the agent in column 2 or further right, [check_empty_jump]
    returns, and it returns [True] exactly when some EMPTY cell two rows
    below the agent and strictly right of it has three left neighbours that
    are all GROUND or all BLOCK and lies within Euclidean distance 2.9 of
    the agent. *)
Theorem check_empty_jump_iff_gap (row col : Z) (g : grid) :
  2 <= col ->
  (exists r, check_empty_jump row col g = Ok r) /\
  (check_empty_jump row col g = Ok true <-> exists b, gap_at g row col b).
Proof.
  intros Hcol. unfold check_empty_jump. simpl.
  set (body := fun a b : Z => _).
  assert (Hbody : forall a b, in_grid g a b ->
            body a b =
            if (tile g a b =? Element.EMPTY) && (a =? row + 2) && (col <? b)
               && (((tile g a (b - 1) =? Element.GROUND)
                    && (tile g a (b - 2) =? Element.GROUND)
                    && (tile g a (b - 3) =? Element.GROUND))
                   || ((tile g a (b - 1) =? Element.BLOCK)
                       && (tile g a (b - 2) =? Element.BLOCK)
                       && (tile g a (b - 3) =? Element.BLOCK)))
               && dist_leb (get_distance row col a b) 2.9
            then Ok (Return true) else Ok Next).
  { intros a b Hin. apply check_empty_jump_body; assumption. }
  assert (Hgap : forall a b, in_grid g a b ->
            (body a b = Ok (Return true) <-> a = row + 2 /\ gap_at g row col b) /\
            (body a b = Ok (Return true) \/ body a b = Ok Next)).
  { intros a b Hin. rewrite (Hbody a b Hin).
    match goal with |- context [if ?c then _ else _] =>
      destruct c eqn:Hc end.
    - split; [|auto]. split; [intros _|reflexivity].
      rewrite !andb_true_iff, orb_true_iff in Hc.
      destruct Hc as ((((He & Ha) & Hb) & Hw) & Hd).
      apply Z.eqb_eq in He, Ha. apply Z.ltb_lt in Hb. subst a.
      split; [reflexivity|]. unfold gap_at. repeat split; auto; try apply Hin.
      rewrite !three_left_spec in Hw by lia. exact Hw.
    - split; [|auto]. split; [discriminate|].
      intros (-> & _ & Hb & He & Hw & Hd). exfalso.
      rewrite <- !three_left_spec in Hw by lia.
      apply Z.eqb_eq in He. apply Z.ltb_lt in Hb.
      rewrite He, Z.eqb_refl, Hb, Hd in Hc. cbn [andb] in Hc.
      rewrite andb_true_r in Hc.
      destruct Hw as [Hw|Hw]; rewrite Hw in Hc; cbn [orb] in Hc;
        [discriminate|]. rewrite orb_true_r in Hc. discriminate. }
  destruct (scan_columns (length g) (length (hd [] g)) body)
    as [[|r]|] eqn:Hscan.
  - split; [eexists; reflexivity|]. split; [discriminate|].
    intros (b & Hg). exfalso. rewrite scan_columns_Next in Hscan.
    assert (Hin : in_grid g (row + 2) b) by apply Hg.
    destruct (Hgap _ _ Hin) as [[_ H] _].
    rewrite Hscan in H by apply Hin.
    discriminate H. auto.
  - split; [eexists; reflexivity|].
    apply scan_columns_Return in Hscan.
    destruct Hscan as (a & b & Ha & Hb & Hr & _).
    assert (Hin : in_grid g a b) by (split; assumption).
    destruct (Hgap _ _ Hin) as [H [H'|H']]; rewrite H' in Hr;
      [|discriminate]. injection Hr as <-.
    split; [intros _|reflexivity]. exists b. apply H. assumption.
  - exfalso. revert Hscan. apply scan_columns_total.
    intros a b Ha Hb. assert (Hin : in_grid g a b) by (split; assumption).
    destruct (Hgap _ _ Hin) as [_ [H|H]]; rewrite H; discriminate.
Qed.

(** ** [check_power_up] *)

Lemma index_nonneg_Ok (i j : Z) (n : nat) :
  0 <= i -> index i n = Ok j -> j = i /\ i < Z.of_nat n.
Proof.
  unfold index. intros Hi.
  destruct (Z.leb_spec 0 i); [|lia].
  destruct (Z.ltb_spec i (Z.of_nat n)); cbn [andb].
  - intros [= <-]. auto.
  - destruct (Z.ltb_spec i 0); [lia|]. rewrite andb_false_r. discriminate.
Qed.

Lemma get_nonneg_Ok (g : grid) (a b v : Z) :
  0 <= a -> 0 <= b ->
  get g a b = Ok v <-> in_grid g a b /\ tile g a b = v.
Proof.
  intros Ha Hb. split.
  - unfold get, in_grid. simpl.
    destruct (index a (length g)) as [i|] eqn:Hi; [|discriminate].
    destruct (index b (length (hd [] g))) as [j|] eqn:Hj; [|discriminate].
    apply index_nonneg_Ok in Hi, Hj; try assumption.
    destruct Hi as [-> ?], Hj as [-> ?]. simpl. intros [= <-].
    repeat split; auto.
  - intros [Hin <-]. apply get_in_range; apply Hin.
Qed.

(** The body of the scan at a cell of the grid, once [check_on_ground] has
    answered [True]. *)
Lemma check_power_up_body (row col : Z) (g : grid) (a b : Z) :
  in_grid g a b -> check_on_ground row col g = Ok true ->
  (v <- get g a b ;;
   if v =? Element.POWERUP then
     on_ground <- check_on_ground row col g ;;
     if on_ground : bool then
       if (row >=? a) && (b >=? col) then
         let distance := get_distance row col a b in
         if dist_leb distance 3.0 then
           below <- get g (row + 2) col ;;
           if below =? Element.GROUND then Ok (Return (Some true))
           else Ok (Return (Some false))
         else Ok (Return (Some false))
       else Ok Next
     else Ok Next
   else Ok Next)
  = if (tile g a b =? Element.POWERUP) && (a <=? row) && (col <=? b) then
      if dist_leb (get_distance row col a b) 3.0 then
        below <- get g (row + 2) col ;;
        if below =? Element.GROUND then Ok (Return (Some true))
        else Ok (Return (Some false))
      else Ok (Return (Some false))
    else Ok Next.
Proof.
  intros Hin Hog. in_range_get. rewrite Hog. cbn [bind]. rewrite !Z.geb_leb.
  destruct (tile g a b =? Element.POWERUP); reflexivity.
Qed.

(** C5, amended. For an agent column that is not negative,
    [check_power_up] returns [True] exactly when the first POWERUP cell, in
    the order of a scan by columns, that is above or level with the agent
    and not left of it lies within Euclidean distance 3.0, the agent is
    ground-stable by [check_on_ground], and the cell two rows below the
    agent is GROUND. *)
Theorem check_power_up_iff_first (row col : Z) (g : grid) :
  0 <= col ->
  check_power_up row col g = Ok (Some true) <->
  (exists a b, first_power_up_ahead g row col a b /\
               dist_leb (get_distance row col a b) 3.0 = true) /\
  check_on_ground row col g = Ok true /\
  ground_below g row col.
Proof.
  intros Hcol. unfold check_power_up. simpl.
  set (body := fun a b : Z => _).
  rewrite or_else_Ok. split.
  - intros [Hscan|[_ [=]]]. apply scan_columns_Return in Hscan.
    destruct Hscan as (a & b & Ha & Hb & Hr & Hup & Hleft).
    assert (Hin : in_grid g a b) by (split; assumption).
    assert (Hog : check_on_ground row col g = Ok true).
    { unfold body in Hr. in_range_get.
      destruct (tile g a b =? Element.POWERUP); [|discriminate].
      destruct (check_on_ground row col g) as [[|]|]; try discriminate.
      reflexivity. }
    assert (Hbody : forall a b, in_grid g a b -> body a b = _)
      by (intros; apply check_power_up_body; assumption).
    rewrite Hbody in Hr by assumption.
    destruct ((tile g a b =? Element.POWERUP) && (a <=? row) && (col <=? b))
      eqn:Hc; [|discriminate].
    rewrite !andb_true_iff in Hc. destruct Hc as ((Hp & Har) & Hcb).
    apply Z.eqb_eq in Hp. apply Z.leb_le in Har, Hcb.
    destruct (dist_leb (get_distance row col a b) 3.0) eqn:Hd; [|discriminate].
    destruct (get g (row + 2) col) as [below|] eqn:Hbelow; [|discriminate].
    cbn [bind] in Hr.
    destruct (Z.eqb_spec below Element.GROUND) as [->|]; [|discriminate].
    apply get_nonneg_Ok in Hbelow; [|grid_lia|assumption].
    repeat split; auto; try apply Hbelow.
    exists a, b. split; [|assumption].
    split; [repeat split; auto; apply Hin|].
    intros a' b' (Hin' & Hp' & Har' & Hcb') Hbefore.
    assert (E : body a' b' = Ok Next).
    { destruct Hbefore as [Hlt|[-> Hlt]].
      - apply Hleft; grid_lia.
      - apply Hup; grid_lia. }
    rewrite Hbody in E by assumption.
    rewrite Hp', Z.eqb_refl in E.
    destruct (Z.leb_spec a' row); [|lia].
    destruct (Z.leb_spec col b'); [|lia]. cbn [andb] in E.
    destruct (dist_leb (get_distance row col a' b') 3.0); [|discriminate].
    destruct (get g (row + 2) col) as [v|]; [|discriminate].
    cbn [bind] in E. destruct (v =? Element.GROUND); discriminate.
  - intros ((a & b & (Hfirst & Hmin) & Hd) & Hog & Hbelow). left.
    assert (Hbody : forall a b, in_grid g a b -> body a b = _)
      by (intros; apply check_power_up_body; assumption).
    destruct Hfirst as (Hin & Hp & Har & Hcb).
    apply scan_columns_Return. exists a, b.
    assert (Hnext : forall a' b', in_grid g a' b' ->
              column_before a' b' a b -> body a' b' = Ok Next).
    { intros a' b' Hin' Hbefore. rewrite Hbody by assumption.
      destruct ((tile g a' b' =? Element.POWERUP) && (a' <=? row) && (col <=? b'))
        eqn:Hc; [|reflexivity].
      rewrite !andb_true_iff in Hc. destruct Hc as ((Hp' & Har') & Hcb').
      apply Z.eqb_eq in Hp'. apply Z.leb_le in Har', Hcb'.
      exfalso. apply (Hmin a' b'); [repeat split; auto; apply Hin'|assumption]. }
    split; [apply Hin|]. split; [apply Hin|]. split; [|split].
    + rewrite Hbody by assumption. rewrite Hp, Z.eqb_refl.
      destruct (Z.leb_spec a row); [|lia].
      destruct (Z.leb_spec col b); [|lia]. cbn [andb]. rewrite Hd.
      destruct Hbelow as [Hinb Hg]. rewrite (get_in_range g) by apply Hinb.
      cbn [bind]. rewrite Hg. reflexivity.
    + intros a' Ha'. apply Hnext; [grid_lia|].
      right. split; [reflexivity|lia].
    + intros a' b' Ha' Hb'.
      apply Hnext; [grid_lia|]. left. lia.
Qed.

(** ** [find_mario] and [find_enemy] *)

Lemma find_mario_cases (g : grid) :
  (exists a b, first_in_rows g 1 a b /\ find_mario g = Ok (a, b + 1)) \/
  ((forall a b, in_grid g a b -> tile g a b <> 1) /\ find_mario g = Ok (0, 0)).
Proof.
  unfold find_mario. simpl. set (body := fun a b : Z => _).
  assert (Hbody : forall a b, in_grid g a b ->
            body a b = if tile g a b =? 1 then Ok (Return (a, b + 1))
                       else Ok Next).
  { intros a b Hin. unfold body. in_range_get. reflexivity. }
  destruct (scan_rows (length g) (length (hd [] g)) body) as [[|r]|] eqn:Hscan.
  - right. split; [|reflexivity]. rewrite scan_rows_Next in Hscan.
    intros a b Hin. assert (E : body a b = Ok Next) by (apply Hscan; grid_lia).
    rewrite Hbody in E by assumption.
    destruct (Z.eqb_spec (tile g a b) 1); [discriminate|assumption].
  - left. apply scan_rows_Return in Hscan.
    destruct Hscan as (a & b & Ha & Hb & Hr & Hleft & Hup).
    assert (Hin : in_grid g a b) by (split; assumption).
    rewrite Hbody in Hr by assumption.
    destruct (Z.eqb_spec (tile g a b) 1) as [Ht|]; [|discriminate].
    injection Hr as <-. exists a, b. split; [|reflexivity].
    repeat split; auto; try apply Hin.
    intros a' b' Hin' Ht' Hbefore.
    assert (E : body a' b' = Ok Next).
    { destruct Hbefore as [Hlt|[-> Hlt]].
      - apply Hup; grid_lia.
      - apply Hleft; grid_lia. }
    rewrite Hbody, Ht' in E by assumption. discriminate.
  - exfalso. revert Hscan. apply scan_rows_total. intros a b Ha Hb.
    rewrite Hbody by (split; assumption).
    destruct (tile g a b =? 1); discriminate.
Qed.

(** The position found is never above or left of the grid, and at most one
    column past its right edge. *)
Lemma find_mario_range (g : grid) (row col : Z) :
  find_mario g = Ok (row, col) ->
  0 <= row /\ 0 <= col <= Z.of_nat (snd (shape g)).
Proof.
  destruct (find_mario_cases g) as [(a & b & (Hin & _) & ->)|[_ ->]];
    intros [= <- <-]; grid_lia.
Qed.

Lemma find_mario_first (g : grid) (a b : Z) :
  first_in_rows g 1 a b -> find_mario g = Ok (a, b + 1).
Proof.
  intros (Hin & Ht & Hmin).
  destruct (find_mario_cases g) as [(a' & b' & (Hin' & Ht' & Hmin') & ->)|[H _]].
  - specialize (Hmin a' b' Hin' Ht'). specialize (Hmin' a b Hin Ht).
    unfold row_before in *. do 2 f_equal; lia.
  - exfalso. apply (H a b); assumption.
Qed.

Lemma find_enemy_total (g : grid) : exists r, find_enemy g = Ok r.
Proof.
  destruct (find_enemy g) as [r|] eqn:E; [eauto|exfalso]. revert E.
  unfold find_enemy. simpl. apply or_else_total, scan_rows_total.
  intros a b Ha Hb. in_range_get.
  destruct (tile g a b >=? Element.GUMBA); discriminate.
Qed.

(** Right of the last column there is nothing for [check_obstacle] to
    classify. *)
Lemma check_obstacle_past_edge (row col : Z) (g : grid) :
  Z.of_nat (snd (shape g)) <= col -> check_obstacle row col g = Ok no_obstacle.
Proof.
  intros Hcol. unfold check_obstacle. simpl.
  destruct (row <=? 14); [|reflexivity].
  set (body := fun a b : Z => _).
  assert (Hscan : scan_columns (length g) (length (hd [] g)) body = Ok Next).
  { apply scan_columns_Next. intros a b Ha Hb. unfold body. in_range_get.
    rewrite !Z.gtb_ltb. destruct (Z.ltb_spec col b); [grid_lia|].
    destruct ((tile g a b =? Element.BLOCK) || (tile g a b =? Element.PIPE)
              || (tile g a b =? Element.GROUND) && false && (a <=? row + 1));
      reflexivity. }
  rewrite Hscan. reflexivity.
Qed.

(** ** [choose_action] *)

(** The call, given what the sensing returns and what the rules assign. *)
Lemma choose_action_rules (env : environment) (G : globals)
    (row col enemy_row enemy_col : Z) (enemy_dist : dist)
    (enemy_type : option Z) (obstacle_check : obstacle) :
  find_mario (game_area env) = Ok (row, col) ->
  find_enemy (game_area env) = Ok (enemy_row, enemy_col) ->
  get_enemy_dist row col (game_area env) = Ok (enemy_dist, enemy_type) ->
  check_obstacle row col (game_area env) = Ok obstacle_check ->
  choose_action env G =
  curr_action <- rules env (prev_action G) (prev_x G) (get_x_position env)
                       row col enemy_row enemy_col enemy_dist enemy_type
                       obstacle_check ;;
  Ok (value (fix_up_stuck (prev_action G) curr_action),
      {| row := row; col := col;
         prev_x := get_x_position env; curr_x := get_x_position env;
         prev_action := fix_up_stuck (prev_action G) curr_action;
         next_action := next_action G |}).
Proof.
  intros Hm He Hd Ho. unfold choose_action, evaluate.
  rewrite Hm. cbn [bind]. rewrite He. cbn [bind]. rewrite Hd. cbn [bind].
  rewrite Ho. cbn [bind].
  destruct (rules env (prev_action G) (prev_x G) (get_x_position env) row col
                  enemy_row enemy_col enemy_dist enemy_type obstacle_check);
    reflexivity.
Qed.

(** A call that returns has sensed and has run its rules. *)
Lemma choose_action_Ok (env : environment) (G G' : globals) (v : Z) :
  choose_action env G = Ok (v, G') ->
  exists row col enemy_row enemy_col enemy_dist enemy_type obstacle_check
         curr_action,
    find_mario (game_area env) = Ok (row, col) /\
    find_enemy (game_area env) = Ok (enemy_row, enemy_col) /\
    get_enemy_dist row col (game_area env) = Ok (enemy_dist, enemy_type) /\
    check_obstacle row col (game_area env) = Ok obstacle_check /\
    rules env (prev_action G) (prev_x G) (get_x_position env) row col
          enemy_row enemy_col enemy_dist enemy_type obstacle_check
    = Ok curr_action /\
    evaluate env G = Ok (row, col, curr_action) /\
    v = value (fix_up_stuck (prev_action G) curr_action) /\
    prev_action G' = fix_up_stuck (prev_action G) curr_action.
Proof.
  unfold choose_action, evaluate.
  destruct (find_mario (game_area env)) as [[row col]|] eqn:Hm;
    [|discriminate].
  destruct (find_enemy (game_area env)) as [[er ec]|] eqn:He; [|discriminate].
  cbn [bind].
  destruct (get_enemy_dist row col (game_area env)) as [[ed et]|] eqn:Hd;
    [|discriminate].
  destruct (check_obstacle row col (game_area env)) as [oc|] eqn:Ho;
    [|discriminate].
  cbn [bind].
  destruct (rules env (prev_action G) (prev_x G) (get_x_position env) row col
                  er ec ed et oc) as [a|] eqn:Hr; [|discriminate].
  cbn [bind]. intros [= <- <-].
  exists row, col, er, ec, ed, et, oc, a. repeat split; auto.
Qed.

Lemma value_inj (a b : Action) : value a = value b -> a = b.
Proof. destruct a, b; simpl; intros H; try reflexivity; discriminate. Qed.

Lemma Action_eqb_eq (a b : Action) : Action_eqb a b = true <-> a = b.
Proof.
  unfold Action_eqb. rewrite Z.eqb_eq. split; [apply value_inj|now intros ->].
Qed.

Lemma all_cells_spec (g : grid) (P : Z -> Z -> bool) :
  all_cells g P = true <-> forall a b, in_grid g a b -> P a b = true.
Proof.
  unfold all_cells. rewrite forallb_forall. split.
  - intros H a b [Ha Hb]. apply in_range in Ha, Hb.
    specialize (H a Ha). rewrite forallb_forall in H. auto.
  - intros H a Ha. apply forallb_forall. intros b Hb.
    apply in_range in Ha, Hb. apply H. split; assumption.
Qed.

Lemma get_enemy_dist_Ok (row col : Z) (g : grid) :
  exists d t, get_enemy_dist row col g = Ok (d, t).
Proof.
  pose proof (get_enemy_dist_total row col g).
  destruct (get_enemy_dist row col g) as [[d t]|]; [eauto|congruence].
Qed.

Lemma cell_below_get (g : grid) (row col v : Z) :
  cell_below g row col v -> get g (row + 2) col = Ok v.
Proof. intros [Hin <-]. apply get_in_range; apply Hin. Qed.

Ltac dist_lia :=
  unfold dist_ltb, dist_leb in *; simpl in *;
  rewrite ?Z.leb_le, ?Z.ltb_lt, ?Z.leb_gt, ?Z.ltb_ge in *; lia.

(** C2, amended. When the agent's row is below 14, the cell two rows below
    it is a PIPE and the sensing before the rules returns, [choose_action]
    emits UP if the previous action is JUMP, JUMP_EMPTY, JUMP_OBS or
    JUMP_POWER_UP, and JUMP_RIGHT for every other previous action. *)
Theorem standing_on_pipe (env : environment) (G : globals) (row col : Z)
    (obstacle_check : obstacle) :
  find_mario (game_area env) = Ok (row, col) ->
  check_obstacle row col (game_area env) = Ok obstacle_check ->
  row < 14 ->
  cell_below (game_area env) row col Element.PIPE ->
  (In (prev_action G) [JUMP; JUMP_EMPTY; JUMP_OBS; JUMP_POWER_UP] ->
   emits env G UP) /\
  (~ In (prev_action G) [JUMP; JUMP_EMPTY; JUMP_OBS; JUMP_POWER_UP] ->
   emits env G JUMP_RIGHT).
Proof.
  intros Hm Ho Hrow Hpipe.
  destruct (find_enemy_total (game_area env)) as [[er ec] He].
  destruct (get_enemy_dist_Ok row col (game_area env)) as (ed & et & Hd).
  unfold emits. rewrite (choose_action_rules env G _ _ _ _ _ _ _ Hm He Hd Ho).
  unfold rules. apply Z.ltb_lt in Hrow. rewrite Hrow.
  rewrite (cell_below_get _ _ _ _ Hpipe). cbn [bind].
  rewrite Z.eqb_refl.
  split; intros Hprev; destruct (prev_action G); simpl in Hprev;
    try (exfalso; intuition discriminate);
    (eexists; split; reflexivity).
Qed.

(** C3, amended. When the agent's row is below 14, the cell two rows below
    it is neither a PIPE nor EMPTY, the sensing before the rules returns,
    the hostile cell that [find_enemy] returns is at least two rows below
    the agent's row, the distance that [get_enemy_dist] returns is below 7
    and the previous action is RIGHT, [choose_action] emits JUMP_EMPTY. *)
Theorem enemy_below (env : environment) (G : globals) (row col below : Z)
    (enemy_row enemy_col : Z) (enemy_dist : dist) (enemy_type : option Z)
    (obstacle_check : obstacle) :
  find_mario (game_area env) = Ok (row, col) ->
  find_enemy (game_area env) = Ok (enemy_row, enemy_col) ->
  get_enemy_dist row col (game_area env) = Ok (enemy_dist, enemy_type) ->
  check_obstacle row col (game_area env) = Ok obstacle_check ->
  row < 14 ->
  cell_below (game_area env) row col below ->
  below <> Element.PIPE ->
  below <> Element.EMPTY ->
  row + 2 <= enemy_row ->
  dist_ltb enemy_dist 7 = true ->
  prev_action G = RIGHT ->
  emits env G JUMP_EMPTY.
Proof.
  intros Hm He Hd Ho Hrow Hbelow Hpipe Hempty Her Hdist Hprev.
  apply find_mario_range in Hm as Hrange.
  unfold emits. rewrite (choose_action_rules env G _ _ _ _ _ _ _ Hm He Hd Ho).
  unfold rules. apply Z.ltb_lt in Hrow. rewrite Hrow.
  rewrite (cell_below_get _ _ _ _ Hbelow). cbn [bind].
  destruct (Z.eqb_spec below Element.PIPE); [contradiction|].
  destruct (Z.ltb_spec enemy_row row); [lia|]. cbn [andb].
  destruct (Z.leb_spec (row + 2) enemy_row); [|lia].
  destruct (Z.eqb_spec enemy_row 0); [lia|].
  destruct (Z.eqb_spec below Element.EMPTY); [contradiction|].
  rewrite Hprev, Hdist. simpl.
  eexists; split; reflexivity.
Qed.

(** ** The rules that never choose JUMP_RIGHT *)

Lemma process_gumbas_close (prev_action : Action) (d : dist) :
  dist_leb d 4.5 = true -> process_gumbas prev_action d <> JUMP_RIGHT.
Proof.
  intros Hd. assert (H5 : dist_ltb d 5 = true) by dist_lia.
  unfold process_gumbas. rewrite H5.
  repeat match goal with
         | |- context [if ?c then _ else _] => destruct c
         end; discriminate.
Qed.

Lemma react_to_enemy_close (prev_action : Action) (d : dist) (t : option Z)
    (enemy_row row : Z) :
  dist_leb d 4.5 = true ->
  react_to_enemy prev_action d t enemy_row row <> JUMP_RIGHT.
Proof.
  intros Hd. unfold react_to_enemy.
  destruct (type_is t Element.GUMBA); [now apply process_gumbas_close|].
  repeat match goal with
         | |- context [if ?c then _ else _] => destruct c
         end; discriminate.
Qed.

Lemma jump_empty_not_JUMP_RIGHT (env : environment) (prev_action : Action)
    (curr_x : Z) :
  jump_empty env prev_action curr_x <> JUMP_RIGHT.
Proof.
  unfold jump_empty.
  repeat match goal with
         | |- context [if ?c then _ else _] => destruct c
         end; discriminate.
Qed.

Lemma collect_power_up_not_JUMP_RIGHT (prev_action : Action) :
  collect_power_up prev_action <> JUMP_RIGHT.
Proof. destruct prev_action; discriminate. Qed.

Lemma jump_obstacle_not_JUMP_RIGHT (prev_action : Action) (prev_x curr_x : Z)
    (o : obstacle) :
  jump_obstacle prev_action prev_x curr_x o <> JUMP_RIGHT.
Proof.
  unfold jump_obstacle.
  repeat match goal with
         | |- context [if ?c then _ else _] => destruct c
         end; discriminate.
Qed.

Lemma fix_up_stuck_JUMP_RIGHT (prev_action curr_action : Action) :
  fix_up_stuck prev_action curr_action = JUMP_RIGHT -> curr_action = JUMP_RIGHT.
Proof.
  unfold fix_up_stuck.
  destruct (Action_eqb prev_action UP && Action_eqb curr_action UP);
    [discriminate|auto].
Qed.

(** C9. A call of [choose_action] that returns the value of JUMP_RIGHT
    found the agent in a row below 14 with a PIPE two rows below it, and a
    previous action that is none of JUMP, JUMP_EMPTY, JUMP_OBS and
    JUMP_POWER_UP; the basic-enemy branch, taken only at a distance of at
    most 4.5, never chooses JUMP_RIGHT, which it would at a distance of 5
    or more. *)
Theorem JUMP_RIGHT_only_off_pipe :
  (forall (env : environment) (G G' : globals),
      choose_action env G = Ok (value JUMP_RIGHT, G') ->
      exists row col,
        find_mario (game_area env) = Ok (row, col) /\ row < 14 /\
        cell_below (game_area env) row col Element.PIPE /\
        ~ In (prev_action G) [JUMP; JUMP_EMPTY; JUMP_OBS; JUMP_POWER_UP]) /\
  (forall (prev_action : Action) (enemy_dist : dist),
      dist_leb enemy_dist 4.5 = true ->
      dist_ltb enemy_dist 5 = true /\
      process_gumbas prev_action enemy_dist <> JUMP_RIGHT).
Proof.
  split.
  - intros env G G' H. apply choose_action_Ok in H.
    destruct H as (row & col & er & ec & ed & et & oc & a
                   & Hm & He & Hd & Ho & Hr & _ & Hv & _).
    apply value_inj in Hv. symmetry in Hv.
    apply fix_up_stuck_JUMP_RIGHT in Hv. subst a.
    apply find_mario_range in Hm as Hrange.
    exists row, col. split; [assumption|].
    unfold rules in Hr.
    destruct (Z.ltb_spec row 14); [|discriminate]. split; [assumption|].
    destruct (get (game_area env) (row + 2) col) as [below|] eqn:Hget;
      [|discriminate].
    cbn [bind] in Hr. apply get_nonneg_Ok in Hget; [|lia|lia].
    destruct (Z.eqb_spec below Element.PIPE) as [->|].
    + split; [exact Hget|].
      destruct (prev_action G); simpl in Hr; try discriminate;
        simpl; intuition discriminate.
    + exfalso.
      destruct ((er <? row) && (ec >? col) && dist_ltb ed 6.0);
        [discriminate|].
      match type of Hr with
      | (if ?c then _ else _) = _ => destruct c; [discriminate|]
      end.
      destruct (dist_leb ed 4.5) eqn:Hclose.
      { injection Hr as Hr. revert Hr. now apply react_to_enemy_close. }
      destruct (check_empty_jump row col (game_area env)) as [[|]|];
        cbn [bind] in Hr; try discriminate.
      { injection Hr as Hr. revert Hr. apply jump_empty_not_JUMP_RIGHT. }
      destruct (check_power_up row col (game_area env)) as [[[|]|]|];
        cbn [bind] in Hr; try discriminate;
        try (injection Hr as Hr; revert Hr;
             apply collect_power_up_not_JUMP_RIGHT);
        (destruct oc;
         [injection Hr as Hr; revert Hr; apply jump_obstacle_not_JUMP_RIGHT
         |injection Hr as Hr; revert Hr; apply jump_obstacle_not_JUMP_RIGHT
         |destruct (row =? 0); discriminate]).
  - intros prev d Hd. split; [dist_lia|now apply process_gumbas_close].
Qed.

(** ** The stuck condition *)

Lemma choose_action_after_UP (env : environment) (G G' : globals) (v : Z) :
  prev_action G = UP -> choose_action env G = Ok (v, G') -> v <> value UP.
Proof.
  intros Hprev H. apply choose_action_Ok in H.
  destruct H as (_ & _ & _ & _ & _ & _ & _ & a & _ & _ & _ & _ & _ & _ & -> & _).
  rewrite Hprev. destruct a; discriminate.
Qed.

Lemma choose_action_records (env : environment) (G G' : globals) (v : Z) :
  choose_action env G = Ok (v, G') -> v = value (prev_action G').
Proof.
  intros H. apply choose_action_Ok in H.
  destruct H as (_ & _ & _ & _ & _ & _ & _ & a & _ & _ & _ & _ & _ & _ & -> & ->).
  reflexivity.
Qed.

Lemma steps_UP (envs : list environment) :
  forall (G G' : globals) (vs : list Z),
    steps G envs = Ok (vs, G') ->
    (prev_action G = UP -> forall tl, vs <> value UP :: tl) /\
    ~ twice_in_a_row (value UP) vs.
Proof.
  induction envs as [|env envs IH]; intros G G' vs; simpl.
  - intros [= <- <-]. split; [discriminate|].
    intros (l1 & l2 & H). destruct l1; discriminate.
  - destruct (choose_action env G) as [[v G1]|] eqn:Hc; [|discriminate].
    cbn [bind].
    destruct (steps G1 envs) as [[vs1 G2]|] eqn:Hs; [|discriminate].
    cbn [bind]. intros [= <- <-].
    destruct (IH _ _ _ Hs) as [IHa IHb]. split.
    + intros Hprev tl [= Hv _]. revert Hv.
      now apply (choose_action_after_UP env G G1).
    + intros (l1 & l2 & H). destruct l1 as [|x l1]; simpl in H.
      * injection H as Hv Hvs. apply choose_action_records in Hc.
        rewrite Hc in Hv. apply (value_inj _ UP) in Hv.
        now apply (IHa Hv l2).
      * injection H as _ Hvs. apply IHb. now exists l1, l2.
Qed.

(** C7. When the previous action is UP and the rules assign UP,
    [choose_action] returns the value of RIGHT and records RIGHT as the
    previous action; hence the values returned by successive calls, from
    any globals and for any environments, never hold the value of UP twice
    in a row. *)
Theorem anti_stall :
  (forall (env : environment) (G : globals) (row col : Z),
      prev_action G = UP ->
      evaluate env G = Ok (row, col, UP) ->
      emits env G RIGHT) /\
  (forall (G G' : globals) (envs : list environment) (vs : list Z),
      steps G envs = Ok (vs, G') -> ~ twice_in_a_row (value UP) vs).
Proof.
  split.
  - intros env G row col Hprev He. unfold emits, choose_action.
    rewrite He, Hprev. cbn. eexists; split; reflexivity.
  - intros G G' envs vs H. exact (proj2 (steps_UP envs G G' vs H)).
Qed.

(** ** The agent in the last column *)

Lemma first_in_rows_check (g : grid) (v a b : Z) :
  in_grid g a b -> tile g a b = v -> none_before_in_rows g v a b = true ->
  first_in_rows g v a b.
Proof.
  intros Hin Ht Hall. split; [assumption|]. split; [assumption|].
  unfold none_before_in_rows in Hall. rewrite all_cells_spec in Hall.
  intros a' b' Hin' Ht' Hbefore. specialize (Hall a' b' Hin').
  apply Z.eqb_eq in Ht'. rewrite Ht' in Hall. cbn [negb orb] in Hall.
  apply negb_true_iff in Hall. unfold row_before in Hbefore.
  destruct (Z.ltb_spec a' a); [discriminate|].
  destruct (Z.eqb_spec a' a); destruct (Z.ltb_spec b' b);
    try discriminate; lia.
Qed.

(** C10, amended. When the first cell holding 1, in the order of a scan by
    rows, is in the last column, [find_mario] returns as column the width
    of the grid, which is one past the last column and no index of the
    grid; if the row found is below 14, [choose_action] then reads the grid
    at that column and raises. *)
Theorem find_mario_past_last_column (env : environment) (G : globals) (a : Z) :
  first_in_rows (game_area env) 1 a
                (Z.of_nat (snd (shape (game_area env))) - 1) ->
  find_mario (game_area env)
  = Ok (a, Z.of_nat (snd (shape (game_area env)))) /\
  (forall r, get (game_area env) r (Z.of_nat (snd (shape (game_area env))))
             = IndexError) /\
  (a < 14 -> choose_action env G = IndexError).
Proof.
  intros Hfirst. apply find_mario_first in Hfirst.
  replace (Z.of_nat (snd (shape (game_area env))) - 1 + 1)
    with (Z.of_nat (snd (shape (game_area env)))) in Hfirst by lia.
  split; [assumption|]. split.
  - intros r. apply get_past_last_column. lia.
  - intros Ha. unfold choose_action, evaluate. rewrite Hfirst. cbn [bind].
    destruct (find_enemy_total (game_area env)) as [[er ec] ->]. cbn [bind].
    destruct (get_enemy_dist_Ok a (Z.of_nat (snd (shape (game_area env))))
                                (game_area env)) as (ed & et & ->).
    cbn [bind]. rewrite check_obstacle_past_edge by lia. cbn [bind].
    unfold rules. apply Z.ltb_lt in Ha. rewrite Ha.
    rewrite get_past_last_column by lia. reflexivity.
Qed.

(** C1. With Mario falling into a pit, his feet in the bottom row and
    ground beside him in that row, [check_obstacle] reads the row below
    the grid and [choose_action] raises instead of returning an action. *)
Theorem choose_action_raises_falling :
  find_mario falling = Ok (14, 6) /\
  check_obstacle 14 6 falling = IndexError /\
  choose_action (level_1_1 falling) initial = IndexError.
Proof. repeat split; vm_compute; reflexivity. Qed.

(** With Mario at the right edge of the screen the column found is 20 and
    the pipe test of [choose_action] raises. *)
Lemma choose_action_raises_at_right_edge :
  find_mario at_right_edge = Ok (12, 20) /\
  get at_right_edge (12 + 2) 20 = IndexError /\
  choose_action (level_1_1 at_right_edge) initial = IndexError.
Proof. repeat split; vm_compute; reflexivity. Qed.

(** With Mario in the last but one column and ground under him in it,
    [check_on_ground] reads one column past the edge. *)
Lemma check_on_ground_raises :
  check_on_ground 12 19 floor = IndexError.
Proof. vm_compute. reflexivity. Qed.

(** ** [run_action] *)

Lemma actuate_all_app (l1 l2 : list call) (h : held) :
  actuate_all (l1 ++ l2) h = actuate_all l2 (actuate_all l1 h).
Proof. apply fold_left_app. Qed.

Lemma actuate_all_ticks (n : nat) (h : held) : actuate_all (ticks n) h = h.
Proof. induction n as [|n IH]; simpl; auto. Qed.

Lemma actuate_all_cons (c : call) (l : list call) (h : held) :
  actuate_all (c :: l) h = actuate_all l (actuate c h).
Proof. reflexivity. Qed.

Lemma not_in_ticks (e : WindowEvent) (n : nat) : ~ In (send_input e) (ticks n).
Proof. intros H. apply repeat_spec in H. discriminate. Qed.

Ltac subscripts :=
  cbv [nth Z.to_nat value Pos.to_nat Pos.iter_op Nat.add
       valid_actions release_button] in *.

Ltac actuate_norm :=
  repeat (rewrite actuate_all_app || rewrite actuate_all_ticks
          || rewrite actuate_all_cons);
  cbn [actuate_all fold_left actuate].

Ltac pressed H :=
  repeat (rewrite in_app_iff in H || cbn [In] in H);
  repeat match type of H with
         | _ \/ _ => destruct H as [H|H]
         end;
  try (apply not_in_ticks in H; contradiction);
  try contradiction; try discriminate;
  try (injection H as <-).

(** C8. For every member of [Action], [run_action] ends with the release
    of the input of the action that remains after its recipe; every input
    pressed during the call is released when it returns, whatever was held
    before, and from no input held it returns with no input held.  A second
    release of an input changes nothing. *)
Theorem run_action_releases (act_freq : nat) (a : Action) :
  exists (calls : list call) (b : button),
    recipe act_freq (value a) = Ok (calls, value (remaining a)) /\
    input_of (remaining a) = Some b /\
    run_action act_freq (value a) = Ok (calls ++ [send_input (RELEASE b)]) /\
    (forall (h : held) (b' : button),
        In (send_input (PRESS b')) calls ->
        actuate_all (calls ++ [send_input (RELEASE b)]) h b' = false) /\
    (forall b' : button,
        actuate_all (calls ++ [send_input (RELEASE b)]) nothing_held b'
        = false) /\
    (forall (h : held) (b' b'' : button),
        actuate (send_input (RELEASE b'))
                (actuate (send_input (RELEASE b')) h) b''
        = actuate (send_input (RELEASE b')) h b'').
Proof.
  destruct a;
    (eexists; eexists;
     split; [reflexivity|]; split; [reflexivity|]; split; [reflexivity|];
     split; [|split];
     [ intros h b' Hin; subscripts; pressed Hin; actuate_norm; reflexivity
     | intros b'; subscripts; actuate_norm; destruct b'; reflexivity
     | intros h b' b''; cbn [actuate]; destruct (button_eqb b' b'');
       reflexivity ]).
Qed.

(** ** The rules on the example game areas *)

(** A cell of a game area that is given in full. *)
Ltac cell :=
  match goal with
  | |- in_grid ?g _ _ =>
      let s := eval vm_compute in (shape g) in
      unfold in_grid; change (shape g) with s; simpl; lia
  end.

(** On a pipe after JUMP_RIGHT, which is a jump, the call emits JUMP_RIGHT
    again and not UP. *)
Lemma on_pipe_after_JUMP_RIGHT :
  find_mario on_pipe = Ok (10, 5) /\
  check_obstacle 10 5 on_pipe = Ok no_obstacle /\
  10 < 14 /\
  cell_below on_pipe 10 5 Element.PIPE /\
  jump_variant JUMP_RIGHT = true /\
  emits (level_1_1 on_pipe) (after JUMP_RIGHT) JUMP_RIGHT /\
  ~ emits (level_1_1 on_pipe) (after JUMP_RIGHT) UP.
Proof.
  split; [reflexivity|]. split; [vm_compute; reflexivity|].
  split; [lia|]. split; [split; [cell|reflexivity]|].
  split; [reflexivity|]. split.
  - eexists. split; vm_compute; reflexivity.
  - intros (G' & H & _). vm_compute in H. discriminate.
Qed.

Lemma standing_on_pipe_witness : emits (level_1_1 on_pipe) (after JUMP) UP.
Proof.
  apply (standing_on_pipe (level_1_1 on_pipe) (after JUMP) 10 5 no_obstacle).
  - vm_compute. reflexivity.
  - vm_compute. reflexivity.
  - lia.
  - split; [cell|reflexivity].
  - simpl. auto.
Defined.

(** With a basic enemy two columns ahead on the agent's level, ground two
    rows below and RIGHT as previous action, the call emits JUMP and not
    JUMP_EMPTY. *)
Lemma enemy_on_level_is_jumped :
  find_mario gumba_level = Ok (10, 5) /\
  10 < 14 /\
  cell_below gumba_level 10 5 Element.GROUND /\
  ~ hostile_above gumba_level 10 5 /\
  hostile_level_or_below gumba_level 10 5 /\
  prev_action initial = RIGHT /\
  emits (level_1_1 gumba_level) initial JUMP /\
  ~ emits (level_1_1 gumba_level) initial JUMP_EMPTY.
Proof.
  split; [vm_compute; reflexivity|]. split; [lia|].
  split; [split; [cell|reflexivity]|]. split; [|split; [|split; [|split]]].
  - intros (a & b & Hin & Hv & Ha & _).
    assert (H : all_cells gumba_level
                  (fun a b => negb ((15 <=? tile gumba_level a b) && (a <? 10)))
                = true) by (vm_compute; reflexivity).
    rewrite all_cells_spec in H. specialize (H a b Hin).
    destruct (Z.leb_spec 15 (tile gumba_level a b)); [|lia].
    destruct (Z.ltb_spec a 10); [discriminate|lia].
  - exists 10, 7. split; [cell|]. split; [vm_compute; discriminate|].
    split; [lia|]. split; [lia|reflexivity].
  - reflexivity.
  - eexists. split; vm_compute; reflexivity.
  - intros (G' & H & _). vm_compute in H. discriminate.
Qed.

Lemma enemy_below_witness : emits (level_1_1 gumba_below) initial JUMP_EMPTY.
Proof.
  apply (enemy_below (level_1_1 gumba_below) initial 8 5 Element.BLOCK
                     13 8 (Sqrt 34) (Some 15) no_obstacle).
  - vm_compute. reflexivity.
  - vm_compute. reflexivity.
  - vm_compute. reflexivity.
  - vm_compute. reflexivity.
  - lia.
  - split; [cell|reflexivity].
  - unfold Element.BLOCK, Element.PIPE. lia.
  - unfold Element.BLOCK, Element.EMPTY. lia.
  - lia.
  - reflexivity.
  - reflexivity.
Defined.

(** With a power-up box high up in the next column and another within
    reach a column further, [check_power_up] answers [False]. *)
Lemma first_power_up_out_of_reach :
  find_mario two_power_ups = Ok (12, 6) /\
  collectible_above two_power_ups 12 6 /\
  check_power_up 12 6 two_power_ups = Ok (Some false).
Proof.
  split; [vm_compute; reflexivity|]. split; [|vm_compute; reflexivity].
  split; [|split].
  - exists 11, 8. split; [|reflexivity].
    split; [cell|]. split; [reflexivity|]. lia.
  - vm_compute. reflexivity.
  - split; [cell|reflexivity].
Qed.

Lemma check_power_up_iff_first_witness :
  (exists a b, first_power_up_ahead one_power_up 12 6 a b /\
               dist_leb (get_distance 12 6 a b) 3.0 = true) /\
  check_on_ground 12 6 one_power_up = Ok true /\
  ground_below one_power_up 12 6.
Proof.
  apply (check_power_up_iff_first 12 6 one_power_up).
  - lia.
  - vm_compute. reflexivity.
Defined.

(** C6. With Mario at the left edge of the screen, two cells of ground
    under him and a hole from column 2 on, [check_empty_jump] reads as third
    left neighbour of the hole the cell in the last column and answers
    [True], although no EMPTY cell two rows below the agent, right of it
    and within 2.9 has three left neighbours that are all GROUND or all
    BLOCK. *)
Lemma gap_by_wrapped_neighbour :
  find_mario hole_at_left_edge = Ok (12, 1) /\
  check_empty_jump 12 1 hole_at_left_edge = Ok true /\
  ~ exists b, gap_at hole_at_left_edge 12 1 b.
Proof.
  split; [vm_compute; reflexivity|]. split; [vm_compute; reflexivity|].
  intros (b & Hin & Hlt & He & Hw & Hd).
  assert (Hb : b = 3).
  { assert (0 <= b - 3) by (destruct Hw as [[H _]|[H _]]; exact H).
    unfold dist_leb, get_distance in Hd. simpl in Hd.
    apply Z.leb_le in Hd. nia. }
  subst b.
  destruct Hw as [(_ & H & _)|(_ & H & _)]; vm_compute in H; discriminate.
Qed.

Lemma check_empty_jump_iff_gap_witness : exists b, gap_at hole_ahead 12 6 b.
Proof.
  apply (proj2 (check_empty_jump_iff_gap 12 6 hole_ahead ltac:(lia))).
  vm_compute. reflexivity.
Defined.

Lemma get_enemy_dist_first_ahead_witness :
  exists a b,
    first_hostile_ahead gumba_level 5 a b /\
    float_range ((b - 5) * (b - 5) + (a - 10) * (a - 10)) /\
    get_enemy_dist 10 5 gumba_level
    = Ok (Sqrt ((b - 5) * (b - 5) + (a - 10) * (a - 10)),
          Some (tile gumba_level a b)).
Proof.
  destruct (get_enemy_dist_first_ahead 10 5 gumba_level) as [H|[_ Hd]].
  - split; reflexivity.
  - split; simpl; lia.
  - exact H.
  - vm_compute in Hd. discriminate.
Defined.

Lemma anti_stall_witness :
  emits (level_1_1 (blank 16 20)) (after UP) RIGHT /\
  ~ twice_in_a_row (value UP) [value UP; value RIGHT].
Proof.
  split.
  - apply (proj1 anti_stall (level_1_1 (blank 16 20)) (after UP) 0 0).
    + reflexivity.
    + vm_compute. reflexivity.
  - apply (proj2 anti_stall initial
             {| row := 0; col := 0; prev_x := 100; curr_x := 100;
                prev_action := RIGHT; next_action := RIGHT |}
             [level_1_1 (blank 16 20); level_1_1 (blank 16 20)]).
    vm_compute. reflexivity.
Defined.

Lemma JUMP_RIGHT_only_off_pipe_witness :
  exists row col,
    find_mario on_pipe = Ok (row, col) /\ row < 14 /\
    cell_below on_pipe row col Element.PIPE /\
    ~ In RIGHT [JUMP; JUMP_EMPTY; JUMP_OBS; JUMP_POWER_UP].
Proof.
  apply (proj1 JUMP_RIGHT_only_off_pipe (level_1_1 on_pipe) initial
           {| row := 10; col := 5; prev_x := 100; curr_x := 100;
              prev_action := JUMP_RIGHT; next_action := RIGHT |}).
  vm_compute. reflexivity.
Defined.

Lemma find_mario_past_last_column_witness :
  find_mario at_right_edge = Ok (12, 20) /\
  (forall r, get at_right_edge r 20 = IndexError) /\
  (12 < 14 -> choose_action (level_1_1 at_right_edge) initial = IndexError).
Proof.
  apply (find_mario_past_last_column (level_1_1 at_right_edge) initial 12).
  apply first_in_rows_check.
  - cell.
  - reflexivity.
  - vm_compute. reflexivity.
Defined.

Lemma run_action_releases_witness :
  exists (calls : list call) (b : button),
    recipe 10 (value JUMP_STAIRS) = Ok (calls, value RIGHT) /\
    input_of RIGHT = Some b /\
    run_action 10 (value JUMP_STAIRS)
    = Ok (calls ++ [send_input (RELEASE b)]) /\
    (forall (h : held) (b' : button),
        In (send_input (PRESS b')) calls ->
        actuate_all (calls ++ [send_input (RELEASE b)]) h b' = false) /\
    (forall b' : button,
        actuate_all (calls ++ [send_input (RELEASE b)]) nothing_held b'
        = false) /\
    (forall (h : held) (b' b'' : button),
        actuate (send_input (RELEASE b'))
                (actuate (send_input (RELEASE b')) h) b''
        = actuate (send_input (RELEASE b')) h b'').
Proof. exact (run_action_releases 10 JUMP_STAIRS). Defined.

(** * Further properties of the module *)

(** ** Where Mario and the first enemy are found *)

(** X1. [find_mario] never raises.  It returns the cell right of the first
    cell holding 1 in the order of a scan by rows, and the origin when no
    cell holds 1; the row returned is a row of the grid or 0, the column is
    at least 0 and at most the width of the grid. *)
Theorem find_mario_leading_edge (g : grid) :
  exists row col,
    find_mario g = Ok (row, col) /\
    ((exists b, first_in_rows g 1 row b /\ col = b + 1) \/
     ((forall a b, in_grid g a b -> tile g a b <> 1) /\ row = 0 /\ col = 0)) /\
    0 <= row <= Z.max 0 (Z.of_nat (fst (shape g)) - 1) /\
    0 <= col <= Z.of_nat (snd (shape g)).
Proof.
  destruct (find_mario_cases g) as [(a & b & Hfirst & E)|[Hnone E]].
  - exists a, (b + 1). split; [assumption|]. split; [left; eauto|].
    destruct Hfirst as (Hin & _). grid_lia.
  - exists 0, 0. split; [assumption|]. split; [right; auto|]. lia.
Qed.

Lemma find_enemy_cases (g : grid) :
  (exists a b, first_hostile_in_rows g a b /\ find_enemy g = Ok (a, b)) \/
  ((forall a b, in_grid g a b -> tile g a b < 15) /\
   find_enemy g = Ok (10000, 0)).
Proof.
  unfold find_enemy. simpl. set (body := fun a b : Z => _).
  assert (Hbody : forall a b, in_grid g a b ->
            body a b = if 15 <=? tile g a b then Ok (Return (a, b))
                       else Ok Next).
  { intros a b Hin. unfold body. in_range_get.
    unfold Element.GUMBA. rewrite Z.geb_leb. reflexivity. }
  destruct (scan_rows (length g) (length (hd [] g)) body) as [[|r]|] eqn:Hscan.
  - right. split; [|reflexivity]. rewrite scan_rows_Next in Hscan.
    intros a b Hin. assert (E : body a b = Ok Next) by (apply Hscan; grid_lia).
    rewrite Hbody in E by assumption.
    destruct (Z.leb_spec 15 (tile g a b)); [discriminate|assumption].
  - left. apply scan_rows_Return in Hscan.
    destruct Hscan as (a & b & Ha & Hb & Hr & Hleft & Hup).
    assert (Hin : in_grid g a b) by (split; assumption).
    rewrite Hbody in Hr by assumption.
    destruct (Z.leb_spec 15 (tile g a b)) as [Ht|]; [|discriminate].
    injection Hr as <-. exists a, b. split; [|reflexivity].
    repeat split; auto; try apply Hin.
    intros a' b' Hin' Ht' Hbefore.
    assert (E : body a' b' = Ok Next).
    { destruct Hbefore as [Hlt|[-> Hlt]].
      - apply Hup; grid_lia.
      - apply Hleft; grid_lia. }
    rewrite Hbody in E by assumption.
    destruct (Z.leb_spec 15 (tile g a' b')); [discriminate|lia].
  - exfalso. revert Hscan. apply scan_rows_total. intros a b Ha Hb.
    rewrite Hbody by (split; assumption).
    destruct (15 <=? tile g a b); discriminate.
Qed.

(** X2. [find_enemy] never raises.  It returns the first cell holding a
    value of at least 15 in the order of a scan by rows, wherever that cell
    lies with respect to the agent, and the pair (10000, 0) when every cell
    holds less than 15. *)
Theorem find_enemy_first_in_rows (g : grid) :
  exists enemy_row enemy_col,
    find_enemy g = Ok (enemy_row, enemy_col) /\
    (first_hostile_in_rows g enemy_row enemy_col \/
     ((forall a b, in_grid g a b -> tile g a b < 15) /\
      enemy_row = 10000 /\ enemy_col = 0)).
Proof.
  destruct (find_enemy_cases g) as [(a & b & Hfirst & E)|[Hnone E]].
  - exists a, b. auto.
  - exists 10000, 0. auto.
Qed.

(** ** Scans that look for one cell *)

(** A scan whose body returns [True] at the cells passing a test and falls
    through at the others returns, and returns [True] exactly when some
    cell passes. *)
Lemma scan_columns_exists (x y : nat) (body : Z -> Z -> res (step bool))
    (P : Z -> Z -> bool) :
  (forall a b, 0 <= a < Z.of_nat x -> 0 <= b < Z.of_nat y ->
               body a b = if P a b then Ok (Return true) else Ok Next) ->
  (exists r, or_else (scan_columns x y body) false = Ok r) /\
  (or_else (scan_columns x y body) false = Ok true <->
   exists a b, 0 <= a < Z.of_nat x /\ 0 <= b < Z.of_nat y /\ P a b = true).
Proof.
  intros Hbody.
  destruct (scan_columns x y body) as [[|r]|] eqn:Hscan; cbn.
  - split; [eauto|]. split; [discriminate|].
    intros (a & b & Ha & Hb & HP). rewrite scan_columns_Next in Hscan.
    specialize (Hscan a b Ha Hb). rewrite Hbody, HP in Hscan by assumption.
    discriminate.
  - split; [eauto|]. apply scan_columns_Return in Hscan.
    destruct Hscan as (a & b & Ha & Hb & Hr & _).
    rewrite Hbody in Hr by assumption.
    destruct (P a b) eqn:HP; [|discriminate]. injection Hr as <-.
    split; [intros _|reflexivity]. exists a, b. auto.
  - exfalso. revert Hscan. apply scan_columns_total. intros a b Ha Hb.
    rewrite Hbody by assumption. destruct (P a b); discriminate.
Qed.

(** ** [check_platform_jump] *)

(** What the scan of [check_platform_jump] finds. *)
Lemma check_platform_jump_scan (row col : Z) (g : grid) :
  (exists r, check_platform_jump row col g = Ok r) /\
  (check_platform_jump row col g = Ok true <->
   exists a b, platform_at g row col a b).
Proof.
  unfold check_platform_jump. simpl. set (body := fun a b : Z => _).
  destruct (scan_columns_exists (length g) (length (hd [] g)) body
              (fun a b => (tile g a b =? Element.BLOCK) && (a <? row)
                          && (col <? b)
                          && dist_leb (get_distance row col a b) 7.0))
    as [Htot Hiff].
  { intros a b Ha Hb. unfold body. in_range_get. rewrite Z.gtb_ltb.
    destruct (tile g a b =? Element.BLOCK); cbn [andb]; [|reflexivity].
    destruct ((a <? row) && (col <? b)); reflexivity. }
  split; [assumption|]. rewrite Hiff. unfold platform_at, in_grid. simpl.
  split.
  - intros (a & b & Ha & Hb & HP). exists a, b.
    rewrite !andb_true_iff in HP. destruct HP as (((Ht & Har) & Hcb) & Hd).
    apply Z.eqb_eq in Ht. apply Z.ltb_lt in Har, Hcb. auto 10.
  - intros (a & b & [Ha Hb] & Ht & Har & Hcb & Hd). exists a, b.
    split; [assumption|]. split; [assumption|].
    rewrite !andb_true_iff. apply Z.eqb_eq in Ht. apply Z.ltb_lt in Har, Hcb.
    auto.
Qed.

(** X3. For every grid that numpy can hold and every position of the
    agent, [check_platform_jump] returns, and it returns [True] exactly
    when some BLOCK cell lies strictly above the agent's row and strictly
    right of its column within Euclidean distance 7.0. *)
Theorem check_platform_jump_iff (row col : Z) (g : grid) :
  numpy_sized g -> agent_position g row col ->
  (exists r, check_platform_jump row col g = Ok r) /\
  (check_platform_jump row col g = Ok true <->
   exists a b, platform_at g row col a b).
Proof.
  intros _ _. apply check_platform_jump_scan.
Qed.

(** ** [check_on_ground] *)

Lemma check_on_ground_body_interior (col : Z) (g : grid) (a b : Z) :
  1 <= col -> col + 1 < Z.of_nat (snd (shape g)) -> in_grid g a b ->
  (v <- get g a b ;;
   if v =? Element.GROUND then
     if col =? b then
       r <- get g a (b + 1) ;;
       if r =? Element.GROUND then
         l <- get g a (b - 1) ;;
         if l =? Element.GROUND then Ok (Return true) else Ok Next
       else Ok Next
     else Ok Next
   else Ok Next)
  = if (tile g a b =? Element.GROUND) && (col =? b)
       && (tile g a (col + 1) =? Element.GROUND)
       && (tile g a (col - 1) =? Element.GROUND)
    then Ok (Return true) else Ok Next.
Proof.
  intros Hc1 Hc2 Hin. in_range_get.
  destruct (tile g a b =? Element.GROUND); cbn [andb]; [|reflexivity].
  destruct (Z.eqb_spec col b) as [<-|]; cbn [andb]; [|reflexivity].
  in_range_get.
  destruct (tile g a (col + 1) =? Element.GROUND); cbn [andb]; [|reflexivity].
  reflexivity.
Qed.

(** X4. With the agent's column neither the first nor the last,
    [check_on_ground] returns, and it returns [True] exactly when some row
    of the grid, at any height, holds GROUND in the agent's column and in
    the columns left and right of it. *)
Theorem check_on_ground_iff (row col : Z) (g : grid) :
  1 <= col -> col + 1 < Z.of_nat (snd (shape g)) ->
  (exists r, check_on_ground row col g = Ok r) /\
  (check_on_ground row col g = Ok true <-> exists a, ground_row g col a).
Proof.
  intros Hc1 Hc2. unfold check_on_ground. simpl.
  set (body := fun a b : Z => _).
  destruct (scan_columns_exists (length g) (length (hd [] g)) body
              (fun a b => (tile g a b =? Element.GROUND) && (col =? b)
                          && (tile g a (col + 1) =? Element.GROUND)
                          && (tile g a (col - 1) =? Element.GROUND)))
    as [Htot Hiff].
  { intros a b Ha Hb. unfold body.
    apply check_on_ground_body_interior; try assumption. split; assumption. }
  split; [assumption|]. rewrite Hiff. unfold ground_row. simpl. split.
  - intros (a & b & Ha & Hb & HP). exists a.
    rewrite !andb_true_iff, !Z.eqb_eq in HP.
    destruct HP as (((Ht & ->) & Hr) & Hl). auto.
  - intros (a & Ha & Hl & Ht & Hr). exists a, col.
    split; [assumption|]. split; [simpl in Hc2; lia|].
    rewrite !andb_true_iff, !Z.eqb_eq. auto.
Qed.

(** A loop that raises has an iteration whose body raises. *)
Lemma for_each_raises {R : Type} (f : Z -> res (step R)) (l : list Z) :
  for_each l f = IndexError -> exists i, In i l /\ f i = IndexError.
Proof.
  induction l as [|i l IH]; simpl; [discriminate|].
  destruct (f i) as [[|r]|] eqn:Hi; simpl.
  - intros H. destruct (IH H) as (j & Hj & E). exists j. auto.
  - discriminate.
  - intros _. exists i. auto.
Qed.

Lemma scan_columns_raises {R : Type} (body : Z -> Z -> res (step R))
    (x y : nat) :
  scan_columns x y body = IndexError ->
  exists a b, 0 <= a < Z.of_nat x /\ 0 <= b < Z.of_nat y /\
              body a b = IndexError.
Proof.
  unfold scan_columns. intros H. apply for_each_raises in H.
  destruct H as (b & Hb & H). apply for_each_raises in H.
  destruct H as (a & Ha & H). apply in_range in Ha, Hb. eauto 6.
Qed.

(** A column index that counts from the end of the row is read without
    error. *)
Lemma index_wrapped (i : Z) (n : nat) :
  - Z.of_nat n <= i < Z.of_nat n -> exists j, index i n = Ok j.
Proof.
  intros H. unfold index.
  destruct ((0 <=? i) && (i <? Z.of_nat n)) eqn:E1; [eauto|].
  destruct ((- Z.of_nat n <=? i) && (i <? 0)) eqn:E2; [eauto|].
  exfalso. rewrite andb_false_iff in E1, E2.
  rewrite !Z.leb_gt, !Z.ltb_ge in *. lia.
Qed.

Lemma get_wrapped (g : grid) (a b : Z) :
  - Z.of_nat (fst (shape g)) <= a < Z.of_nat (fst (shape g)) ->
  - Z.of_nat (snd (shape g)) <= b < Z.of_nat (snd (shape g)) ->
  exists v, get g a b = Ok v.
Proof.
  intros Ha Hb. unfold get. simpl in *.
  destruct (index_wrapped a _ Ha) as [i ->]. cbn [bind].
  destruct (index_wrapped b _ Hb) as [j ->]. cbn [bind]. eauto.
Qed.

(** [check_on_ground] raises only with the agent in the last column. *)
Lemma check_on_ground_raise (row col : Z) (g : grid) :
  check_on_ground row col g = IndexError ->
  col + 1 = Z.of_nat (snd (shape g)) /\
  exists a, in_grid g a col /\ tile g a col = Element.GROUND.
Proof.
  unfold check_on_ground. simpl. set (body := fun a b : Z => _).
  intros H.
  destruct (scan_columns (length g) (length (hd [] g)) body)
    as [[|r]|] eqn:Hscan; try discriminate.
  apply scan_columns_raises in Hscan.
  destruct Hscan as (a & b & Ha & Hb & Hcell).
  unfold body in Hcell. in_range_get.
  destruct (Z.eqb_spec (tile g a b) Element.GROUND) as [Ht|];
    [|discriminate].
  destruct (Z.eqb_spec col b) as [->|]; [|discriminate].
  destruct (Z.eq_dec (b + 1) (Z.of_nat (length (hd [] g)))) as [Hlast|Hlast].
  - split; [assumption|]. exists a. split; [split; assumption|assumption].
  - exfalso. in_range_get.
    destruct (tile g a (b + 1) =? Element.GROUND); [|discriminate].
    destruct (get_wrapped g a (b - 1)) as [l Hl]; [grid_lia|grid_lia|].
    rewrite Hl in Hcell. cbn [bind] in Hcell.
    destruct (l =? Element.GROUND); discriminate.
Qed.

(** X5. [check_on_ground] raises exactly when the agent's column is the
    last column of the grid and that column holds a GROUND cell: the cell
    right of it is then read past the edge. *)
Theorem check_on_ground_IndexError_iff (row col : Z) (g : grid) :
  check_on_ground row col g = IndexError <->
  col + 1 = Z.of_nat (snd (shape g)) /\
  exists a, in_grid g a col /\ tile g a col = Element.GROUND.
Proof.
  split; [apply check_on_ground_raise|].
  unfold check_on_ground. simpl. set (body := fun a b : Z => _).
  intros (Hlast & a & Hin & Ht).
  assert (Hcell : body a col = IndexError).
  { unfold body. in_range_get. rewrite Ht, !Z.eqb_refl.
    rewrite get_past_last_column by (simpl; lia). reflexivity. }
  destruct (scan_columns (length g) (length (hd [] g)) body)
    as [[|r]|] eqn:Hscan; [| |reflexivity]; exfalso.
  - rewrite scan_columns_Next in Hscan.
    rewrite Hscan in Hcell by apply Hin. discriminate.
  - apply scan_columns_Return in Hscan.
    destruct Hscan as (a' & b' & Ha' & Hb' & Hr & _).
    unfold body in Hr. in_range_get.
    destruct (tile g a' b' =? Element.GROUND); [|discriminate].
    destruct (Z.eqb_spec col b') as [<-|]; [|discriminate].
    rewrite get_past_last_column in Hr by (simpl; lia). discriminate.
Qed.

(** ** [check_obstacle] *)

Ltac branches :=
  repeat (cbn [bind andb orb] in *;
          match goal with
          | H : context [if ?c then _ else _] |- _ =>
              let E := fresh "E" in destruct c eqn:E
          | H : context [bind ?m _] |- _ =>
              let E := fresh "E" in destruct m eqn:E
          | H : context [match ?s with Next => _ | Return _ => _ end] |- _ =>
              destruct s
          end; try discriminate).

Ltac booleans :=
  rewrite ?orb_true_iff, ?andb_true_iff, ?orb_false_iff, ?andb_false_iff,
    ?Z.gtb_ltb, ?Z.eqb_eq, ?Z.eqb_neq, ?Z.ltb_lt, ?Z.leb_le, ?Z.ltb_ge,
    ?Z.leb_gt in *.

(** What a cell at which the scan of [check_obstacle] returns looks like. *)
Lemma check_obstacle_Return (row col : Z) (g : grid) (o : obstacle) :
  check_obstacle row col g = Ok o -> o <> no_obstacle ->
  row <= 14 /\
  exists a b,
    obstacle_cell g row col a b /\
    dist_leb (get_distance row col a b) 2.0 = true /\
    (o = found_stairs ->
     tile g a b = Element.GROUND /\ a = row + 1 /\
     get g (a + 1) b = Ok Element.GROUND).
Proof.
  unfold check_obstacle. simpl. intros H Ho.
  destruct (Z.leb_spec row 14); [|injection H as <-; contradiction].
  split; [assumption|].
  apply or_else_Ok in H. destruct H as [H|[_ ->]]; [|contradiction].
  apply scan_columns_Return in H.
  destruct H as (a & b & Ha & Hb & Hr & _). exists a, b.
  assert (Hin : in_grid g a b) by (split; assumption).
  in_range_get.
  assert (H1 : dist_leb (get_distance row col a b) 1.0 = true ->
               dist_leb (get_distance row col a b) 2.0 = true)
    by (intros; dist_lia).
  unfold obstacle_cell.
  branches;
    repeat match goal with
           | H : Ok _ = Ok _ |- _ => injection H as H; try subst
           end;
    try (specialize (H1 eq_refl)); try discriminate;
    booleans;
    (split; [split; [assumption|]; split; [lia|]; tauto|]);
    (split; [reflexivity|]); intros Hs; try discriminate;
    repeat split; try tauto; try lia; f_equal; lia.
Qed.

(** X6. Whatever [check_obstacle] reports is there: when it returns one of
    its two strings, the agent's row is at most 14 and some cell strictly
    right of the agent, within Euclidean distance 2.0, holds BLOCK, PIPE,
    or GROUND no lower than one row below the agent's row; when the string
    is "found stairs", that cell holds GROUND exactly one row below the
    agent's row and the cell under it holds GROUND too. *)
Theorem check_obstacle_sound (row col : Z) (g : grid) (o : obstacle) :
  check_obstacle row col g = Ok o -> o <> no_obstacle ->
  row <= 14 /\
  exists a b,
    obstacle_cell g row col a b /\
    dist_leb (get_distance row col a b) 2.0 = true /\
    (o = found_stairs ->
     tile g a b = Element.GROUND /\ a = row + 1 /\
     cell_below g (a - 1) b Element.GROUND).
Proof.
  intros H Ho. destruct (check_obstacle_Return row col g o H Ho)
    as (Hrow & a & b & Hcell & Hd & Hstairs).
  split; [assumption|]. exists a, b. split; [assumption|].
  split; [assumption|]. intros Hs. destruct (Hstairs Hs) as (Ht & Ha & Hget).
  split; [assumption|]. split; [assumption|].
  unfold cell_below. replace (a - 1 + 2) with (a + 1) by lia.
  apply get_nonneg_Ok; [| |assumption]; destruct Hcell as (Hin & _); grid_lia.
Qed.

Lemma check_obstacle_safe (row col : Z) (g : grid) :
  14 < row \/ row + 2 < Z.of_nat (fst (shape g)) ->
  (forall b, col < b < Z.of_nat (snd (shape g)) ->
             tile g (Z.of_nat (fst (shape g)) - 1) b <> Element.BLOCK) ->
  check_obstacle row col g <> IndexError.
Proof.
  intros Hrow Hblock. unfold check_obstacle. simpl in *.
  destruct (Z.leb_spec row 14); [|discriminate].
  apply or_else_total, scan_columns_total. intros a b Ha Hb Hraise.
  in_range_get.
  assert (Hup : exists v, get g (a - 1) b = Ok v)
    by (apply get_wrapped; simpl; lia).
  destruct Hup as [above Hup]. rewrite Hup in Hraise.
  assert (Hdown : a + 1 < Z.of_nat (length g) ->
                  get g (a + 1) b = Ok (tile g (a + 1) b))
    by (intros; apply get_in_range; simpl; lia).
  destruct (Z.eq_dec a (Z.of_nat (length g) - 1)) as [->|].
  - (* the last row: nothing below is read *)
    branches; booleans;
      first [apply (Hblock b); [lia|assumption] | lia | intuition lia].
  - rewrite Hdown in Hraise by lia. branches.
Qed.

(** X7. With the agent's row above 14, [check_obstacle] returns [False]
    without reading the grid.  For a grid that numpy can hold and a
    position of the agent, it returns, without reading past the edge of the
    grid, when the grid has at least three rows from the agent's row on and
    its last row holds no BLOCK right of the agent's column. *)
Theorem check_obstacle_returns (row col : Z) (g : grid) :
  (14 < row -> check_obstacle row col g = Ok no_obstacle) /\
  (numpy_sized g -> agent_position g row col ->
   row + 2 < Z.of_nat (fst (shape g)) ->
   (forall b, col < b < Z.of_nat (snd (shape g)) ->
              tile g (Z.of_nat (fst (shape g)) - 1) b <> Element.BLOCK) ->
   exists o, check_obstacle row col g = Ok o).
Proof.
  split.
  - intros Hrow. unfold check_obstacle. simpl.
    destruct (Z.leb_spec row 14); [lia|reflexivity].
  - intros _ _ Hrow Hblock.
    pose proof (check_obstacle_safe row col g (or_intror Hrow) Hblock) as H.
    destruct (check_obstacle row col g) as [o|]; [eauto|congruence].
Qed.

(** ** [check_empty_jump] and [check_power_up] without errors *)

Lemma check_empty_jump_safe (row col : Z) (g : grid) :
  0 <= col -> check_empty_jump row col g <> IndexError.
Proof.
  intros Hcol. unfold check_empty_jump. simpl.
  apply or_else_total, scan_columns_total. intros a b Ha Hb Hraise.
  in_range_get.
  destruct ((tile g a b =? Element.EMPTY) && (a =? row + 2) && (b >? col))
    eqn:Hc; [|discriminate].
  booleans. destruct Hc as ((_ & _) & Hlt).
  destruct (get_wrapped g a (b - 1)) as [l1 E1]; [simpl; lia|simpl; lia|].
  destruct (get_wrapped g a (b - 2)) as [l2 E2]; [simpl; lia|simpl; lia|].
  destruct (get_wrapped g a (b - 3)) as [l3 E3]; [simpl; lia|simpl; lia|].
  rewrite E1, E2, E3 in Hraise. branches.
Qed.

(** X8. With an agent column that is not negative, [check_empty_jump]
    returns: every cell it reads left of a hole is a cell of the grid,
    counted from the right edge when the hole is less than three columns
    from the left edge. *)
Theorem check_empty_jump_returns (row col : Z) (g : grid) :
  0 <= col -> exists r, check_empty_jump row col g = Ok r.
Proof.
  intros Hcol. pose proof (check_empty_jump_safe row col g Hcol) as H.
  destruct (check_empty_jump row col g) as [r|]; [eauto|congruence].
Qed.

Lemma check_power_up_safe (row col : Z) (g : grid) :
  check_on_ground row col g <> IndexError ->
  (exists v, get g (row + 2) col = Ok v) ->
  check_power_up row col g <> IndexError.
Proof.
  intros Hog [v Hv]. unfold check_power_up. simpl.
  apply or_else_total, scan_columns_total. intros a b Ha Hb Hraise.
  in_range_get. rewrite Hv in Hraise.
  destruct (check_on_ground row col g) as [og|]; [|congruence].
  branches.
Qed.

(** X9. With no POWERUP cell in the grid [check_power_up] returns [None]
    and evaluates nothing else; with a POWERUP cell in the grid it calls
    [check_on_ground] and raises whenever that call raises. *)
Theorem check_power_up_calls_check_on_ground (row col : Z) (g : grid) :
  ((forall a b, in_grid g a b -> tile g a b <> Element.POWERUP) ->
   check_power_up row col g = Ok None) /\
  ((exists a b, in_grid g a b /\ tile g a b = Element.POWERUP) ->
   check_on_ground row col g = IndexError ->
   check_power_up row col g = IndexError).
Proof.
  unfold check_power_up. simpl. set (body := fun a b : Z => _). split.
  - intros Hnone.
    assert (Hscan : scan_columns (length g) (length (hd [] g)) body = Ok Next).
    { apply scan_columns_Next. intros a b Ha Hb. unfold body. in_range_get.
      destruct (Z.eqb_spec (tile g a b) Element.POWERUP) as [Ht|];
        [|reflexivity].
      exfalso. apply (Hnone a b); [split; assumption|assumption]. }
    rewrite Hscan. reflexivity.
  - intros (a & b & Hin & Ht) Hog.
    assert (Hbody : forall a b, in_grid g a b ->
              body a b = if tile g a b =? Element.POWERUP then IndexError
                         else Ok Next).
    { intros a' b' Hin'. unfold body. in_range_get. rewrite Hog.
      reflexivity. }
    destruct (scan_columns (length g) (length (hd [] g)) body)
      as [[|r]|] eqn:Hscan; [| |reflexivity]; exfalso.
    + rewrite scan_columns_Next in Hscan.
      specialize (Hscan a b (proj1 Hin) (proj2 Hin)).
      rewrite Hbody, Ht, Z.eqb_refl in Hscan by assumption. discriminate.
    + apply scan_columns_Return in Hscan.
      destruct Hscan as (a' & b' & Ha' & Hb' & Hr & _).
      rewrite Hbody in Hr by (split; assumption).
      destruct (tile g a' b' =? Element.POWERUP); discriminate.
Qed.

(** ** When [choose_action] returns *)

Lemma check_on_ground_safe (row col : Z) (g : grid) :
  col + 1 < Z.of_nat (snd (shape g)) ->
  check_on_ground row col g <> IndexError.
Proof.
  intros Hcol H. apply check_on_ground_raise in H. lia.
Qed.

Lemma rules_safe (env : environment) (prev_action : Action)
    (prev_x curr_x row col enemy_row enemy_col : Z) (enemy_dist : dist)
    (enemy_type : option Z) (obstacle_check : obstacle) :
  0 <= row -> 0 <= col ->
  row + 2 < Z.of_nat (fst (shape (game_area env))) ->
  col + 1 < Z.of_nat (snd (shape (game_area env))) ->
  rules env prev_action prev_x curr_x row col enemy_row enemy_col enemy_dist
        enemy_type obstacle_check <> IndexError.
Proof.
  intros Hr0 Hc0 Hr Hc. unfold rules.
  destruct (row <? 14); [|discriminate].
  rewrite get_in_range by lia. cbn [bind].
  pose proof (check_empty_jump_safe row col (game_area env) Hc0) as Hgap.
  assert (Hpow : check_power_up row col (game_area env) <> IndexError).
  { apply check_power_up_safe; [now apply check_on_ground_safe|].
    exists (tile (game_area env) (row + 2) col). apply get_in_range; lia. }
  destruct (check_empty_jump row col (game_area env)) as [gap|];
    [|congruence].
  destruct (check_power_up row col (game_area env)) as [power_up|];
    [|congruence].
  cbn [bind].
  repeat match goal with
         | |- context [if ?c then _ else _] => destruct c
         | |- context [match ?o with Some _ => _ | None => _ end] => destruct o
         | |- context [match ?o with obstacle_found => _ | _ => _ end] =>
             destruct o
         end; discriminate.
Qed.

(** X10. [choose_action] returns an action, and records it as the previous
    action, whenever the position found for Mario leaves two rows of the
    grid below it and one column right of it, and the last row of the grid
    holds no BLOCK right of that position. *)
Theorem choose_action_returns (env : environment) (G : globals)
    (row col : Z) :
  find_mario (game_area env) = Ok (row, col) ->
  row + 2 < Z.of_nat (fst (shape (game_area env))) ->
  col + 1 < Z.of_nat (snd (shape (game_area env))) ->
  (forall b, col < b < Z.of_nat (snd (shape (game_area env))) ->
             tile (game_area env)
                  (Z.of_nat (fst (shape (game_area env))) - 1) b
             <> Element.BLOCK) ->
  exists a, emits env G a.
Proof.
  intros Hm Hr Hc Hblock. apply find_mario_range in Hm as Hrange.
  destruct (find_enemy_total (game_area env)) as [[er ec] He].
  destruct (get_enemy_dist_Ok row col (game_area env)) as (ed & et & Hd).
  pose proof (check_obstacle_safe row col (game_area env) (or_intror Hr)
                                  Hblock) as Ho.
  destruct (check_obstacle row col (game_area env)) as [oc|] eqn:Eo;
    [|congruence].
  unfold emits. rewrite (choose_action_rules env G _ _ _ _ _ _ _ Hm He Hd Eo).
  pose proof (rules_safe env (prev_action G) (prev_x G) (get_x_position env)
                row col er ec ed et oc (proj1 Hrange)
                (proj1 (proj2 Hrange)) Hr Hc) as Hrules.
  destruct (rules env (prev_action G) (prev_x G) (get_x_position env) row col
                  er ec ed et oc) as [a|]; [|congruence].
  cbn [bind]. eexists. eexists. split; reflexivity.
Qed.

Lemma choose_action_returns_witness : exists a, emits (level_1_1 on_floor) initial a.
Proof.
  apply (choose_action_returns (level_1_1 on_floor) initial 12 6).
  - vm_compute. reflexivity.
  - simpl. lia.
  - simpl. lia.
  - intros b Hb.
    assert (H : all_cells on_floor
                  (fun a b => negb (a =? 15) || negb (tile on_floor a b =? 12))
                = true) by (vm_compute; reflexivity).
    rewrite all_cells_spec in H.
    specialize (H 15 b ltac:(unfold in_grid; simpl in *; lia)).
    simpl in H. apply negb_true_iff in H. apply Z.eqb_neq in H. exact H.
Defined.

(** X11. With the position found for Mario in row 15 or lower,
    [choose_action] always returns: UP, or RIGHT when the previous action
    is UP. *)
Theorem choose_action_low_row (env : environment) (G : globals)
    (row col : Z) :
  find_mario (game_area env) = Ok (row, col) ->
  15 <= row ->
  emits env G (if Action_eqb (prev_action G) UP then RIGHT else UP).
Proof.
  intros Hm Hrow.
  destruct (find_enemy_total (game_area env)) as [[er ec] He].
  destruct (get_enemy_dist_Ok row col (game_area env)) as (ed & et & Hd).
  assert (Ho : check_obstacle row col (game_area env) = Ok no_obstacle).
  { unfold check_obstacle. simpl.
    destruct (Z.leb_spec row 14); [lia|reflexivity]. }
  unfold emits. rewrite (choose_action_rules env G _ _ _ _ _ _ _ Hm He Hd Ho).
  unfold rules. destruct (Z.ltb_spec row 14); [lia|]. cbn [bind].
  unfold fix_up_stuck. destruct (Action_eqb (prev_action G) UP);
    eexists; split; reflexivity.
Qed.

Lemma choose_action_low_row_witness : emits (level_1_1 at_bottom) initial UP.
Proof.
  apply (choose_action_low_row (level_1_1 at_bottom) initial 15 6).
  - vm_compute. reflexivity.
  - lia.
Defined.

(** ** The actions [choose_action] never returns *)

Lemma sum_of_squares_not_3 (x y : Z) : x * x + y * y <> 3.
Proof.
  intros H.
  assert (-1 <= x <= 1) by nia. assert (-1 <= y <= 1) by nia.
  assert (Hx : x = -1 \/ x = 0 \/ x = 1) by lia.
  assert (Hy : y = -1 \/ y = 0 \/ y = 1) by lia.
  destruct Hx as [-> | [-> | ->]]; destruct Hy as [-> | [-> | ->]];
    discriminate.
Qed.

(** The distance of [get_enemy_dist] is 10000 or that of a cell. *)
Lemma get_enemy_dist_radicand (row col : Z) (g : grid) (d : dist)
    (t : option Z) :
  get_enemy_dist row col g = Ok (d, t) -> radicand d <> 3.
Proof.
  unfold get_enemy_dist. simpl. intros H. apply or_else_Ok in H.
  destruct H as [H|[_ H]];
    [|injection H as -> _; vm_compute; discriminate].
  apply scan_columns_Return in H. destruct H as (a & b & Ha & Hb & Hr & _).
  in_range_get. branches. injection Hr as <- _. simpl.
  apply sum_of_squares_not_3.
Qed.

Lemma process_gumbas_assignable (prev_action : Action) (d : dist) :
  radicand d <> 3 -> assignable (process_gumbas prev_action d) = true.
Proof.
  intros Hd. unfold process_gumbas.
  destruct (dist_ltb d 2 && negb (dist_leb d 1.5)) eqn:E.
  - exfalso. apply andb_true_iff in E. destruct E as [E1 E2].
    apply negb_true_iff in E2. dist_lia.
  - rewrite <- andb_assoc, E, andb_false_r.
    repeat match goal with
           | |- context [if ?c then _ else _] => destruct c
           end; reflexivity.
Qed.

Lemma rules_assignable (env : environment) (prev_action : Action)
    (prev_x curr_x row col enemy_row enemy_col : Z) (enemy_dist : dist)
    (enemy_type : option Z) (obstacle_check : obstacle) (a : Action) :
  radicand enemy_dist <> 3 ->
  rules env prev_action prev_x curr_x row col enemy_row enemy_col enemy_dist
        enemy_type obstacle_check = Ok a ->
  assignable a = true.
Proof.
  intros Hd. pose proof (process_gumbas_assignable prev_action _ Hd) as Hg.
  unfold rules, react_to_enemy, jump_empty, collect_power_up, jump_obstacle.
  intros H.
  repeat match type of H with
         | context [bind ?m _] =>
             let E := fresh "E" in destruct m eqn:E; cbn [bind] in H;
             try discriminate
         | context [if ?c then _ else _] => destruct c; try discriminate
         | context [match ?o with Some _ => _ | None => _ end] => destruct o
         | context [match ?o with obstacle_found => _ | _ => _ end] =>
             destruct o
         end;
    injection H as <-; auto.
Qed.

(** X12. A call of [choose_action] never returns the value of DOWN,
    PRESS_B, TUNNEL_LEFT or JUMP_SKIP_ENEMY.  No branch assigns the first
    three; JUMP_SKIP_ENEMY needs an enemy distance strictly between 1.5 and
    2, that is the square root of 3, which no two cells of a grid are
    apart. *)
Theorem choose_action_never_returns (env : environment) (G G' : globals)
    (v : Z) :
  choose_action env G = Ok (v, G') ->
  v <> value DOWN /\ v <> value PRESS_B /\ v <> value TUNNEL_LEFT /\
  v <> value JUMP_SKIP_ENEMY.
Proof.
  intros H. apply choose_action_Ok in H.
  destruct H as (row & col & er & ec & ed & et & oc & a
                 & _ & _ & Hd & _ & Hr & _ & -> & _).
  apply get_enemy_dist_radicand in Hd.
  apply (rules_assignable _ _ _ _ _ _ _ _ _ _ _ _ Hd) in Hr.
  unfold fix_up_stuck.
  destruct (Action_eqb (prev_action G) UP && Action_eqb a UP);
    [repeat split; discriminate|].
  destruct a; try discriminate; repeat split; discriminate.
Qed.

Lemma choose_action_never_returns_witness :
  value JUMP <> value DOWN /\ value JUMP <> value PRESS_B /\
  value JUMP <> value TUNNEL_LEFT /\ value JUMP <> value JUMP_SKIP_ENEMY.
Proof.
  apply (choose_action_never_returns (level_1_1 gumba_level) initial
           {| row := 10; col := 5; prev_x := 100; curr_x := 100;
              prev_action := JUMP; next_action := RIGHT |}).
  vm_compute. reflexivity.
Defined.

(** ** Actions that are not chosen twice in a row *)

Lemma rules_not_repeated (env : environment) (prev_action : Action)
    (prev_x curr_x row col enemy_row enemy_col : Z) (enemy_dist : dist)
    (enemy_type : option Z) (obstacle_check : obstacle) :
  In prev_action never_repeated ->
  rules env prev_action prev_x curr_x row col enemy_row enemy_col enemy_dist
        enemy_type obstacle_check <> Ok prev_action.
Proof.
  intros Hin H. unfold never_repeated in Hin. cbn [In] in Hin.
  unfold rules, react_to_enemy, process_gumbas, jump_empty, collect_power_up,
    jump_obstacle in H.
  repeat destruct Hin as [<-|Hin]; try contradiction;
    cbn [Action_in existsb Action_eqb value Z.eqb Pos.eqb andb orb negb] in H;
    rewrite ?andb_false_r in H; cbn [andb] in H;
    repeat match type of H with
           | context [bind ?m _] =>
               let E := fresh "E" in destruct m eqn:E; cbn [bind] in H;
               try discriminate
           | context [if ?c then _ else _] => destruct c; try discriminate
           | context [match ?o with Some _ => _ | None => _ end] => destruct o
           | context [match ?o with obstacle_found => _ | _ => _ end] =>
               destruct o
           end;
    discriminate.
Qed.

Lemma choose_action_not_repeated (env : environment) (G G' : globals) (v : Z) :
  In (prev_action G) never_repeated ->
  choose_action env G = Ok (v, G') -> v <> value (prev_action G).
Proof.
  intros Hin H. apply choose_action_Ok in H.
  destruct H as (row & col & er & ec & ed & et & oc & a
                 & _ & _ & _ & _ & Hr & _ & -> & _).
  intros Hv. apply value_inj in Hv.
  assert (Ha : a = prev_action G).
  { unfold fix_up_stuck in Hv.
    destruct (Action_eqb (prev_action G) UP && Action_eqb a UP) eqn:E;
      [|assumption].
    exfalso. rewrite <- Hv in Hin. unfold never_repeated in Hin. cbn [In] in Hin.
    intuition discriminate. }
  subst a. revert Hr. now apply rules_not_repeated.
Qed.

Lemma steps_never_twice (a : Action) (envs : list environment) :
  In a never_repeated ->
  forall (G G' : globals) (vs : list Z),
    steps G envs = Ok (vs, G') ->
    (prev_action G = a -> forall tl, vs <> value a :: tl) /\
    ~ twice_in_a_row (value a) vs.
Proof.
  intros Hin.
  induction envs as [|env envs IH]; intros G G' vs; simpl.
  - intros [= <- <-]. split; [discriminate|].
    intros (l1 & l2 & H). destruct l1; discriminate.
  - destruct (choose_action env G) as [[v G1]|] eqn:Hc; [|discriminate].
    cbn [bind].
    destruct (steps G1 envs) as [[vs1 G2]|] eqn:Hs; [|discriminate].
    cbn [bind]. intros [= <- <-].
    destruct (IH _ _ _ Hs) as [IHa IHb]. split.
    + intros Hprev tl [= Hv _]. subst a. revert Hv.
      now apply (choose_action_not_repeated env G G1).
    + intros (l1 & l2 & H). destruct l1 as [|x l1]; cbn [app] in H.
      * injection H as Hv Hvs. apply choose_action_records in Hc.
        rewrite Hc in Hv. apply value_inj in Hv.
        now apply (IHa Hv l2).
      * injection H as _ Hvs. apply IHb. now exists l1, l2.
Qed.

(** X13. Successive calls of [choose_action], from any globals and for any
    environments, never return twice in a row the value of JUMP, nor of
    JUMP_OBS, JUMP_EMPTY, JUMP_POWER_UP, ENEMY_LEFT or JUMP_BIG_GAP. *)
Theorem never_twice_in_a_row (a : Action) (G G' : globals)
    (envs : list environment) (vs : list Z) :
  In a never_repeated ->
  steps G envs = Ok (vs, G') ->
  ~ twice_in_a_row (value a) vs.
Proof.
  intros Hin H. exact (proj2 (steps_never_twice a envs Hin G G' vs H)).
Qed.

Lemma never_twice_in_a_row_witness :
  ~ twice_in_a_row (value JUMP) [value JUMP; value ENEMY_LEFT].
Proof.
  apply (never_twice_in_a_row JUMP initial
           {| row := 10; col := 5; prev_x := 100; curr_x := 100;
              prev_action := ENEMY_LEFT; next_action := RIGHT |}
           [level_1_1 gumba_level; level_1_1 gumba_level]).
  - simpl. auto.
  - vm_compute. reflexivity.
Defined.

(** ** [run_action] on every integer, and [step] *)

Lemma run_action_value (act_freq : nat) (a : Action) :
  exists calls,
    run_action act_freq (value a) = Ok calls /\
    forall b, actuate_all calls nothing_held b = false.
Proof.
  destruct a;
    (eexists; split; [reflexivity|]; intros b; subscripts; actuate_norm;
     destruct b; reflexivity).
Qed.

(** X14. [step] raises only when [choose_action] raises: every value that
    [choose_action] returns is one that [run_action] runs without error,
    and after its calls no input is held. *)
Theorem step_runs_chosen_action (act_freq : nat) (env : environment)
    (G : globals) :
  (MarioExpert.step act_freq env G = IndexError <->
   choose_action env G = IndexError) /\
  (forall G' calls,
      MarioExpert.step act_freq env G = Ok (G', calls) ->
      (exists a, choose_action env G = Ok (value a, G') /\
                 run_action act_freq (value a) = Ok calls) /\
      forall b, actuate_all calls nothing_held b = false).
Proof.
  unfold MarioExpert.step.
  destruct (choose_action env G) as [[v G1]|] eqn:Hc; cbn [bind].
  - pose proof (choose_action_records _ _ _ _ Hc) as ->.
    destruct (run_action_value act_freq (prev_action G1))
      as (calls & Hrun & Hh).
    rewrite Hrun. cbn [bind]. split; [split; discriminate|].
    intros G' calls' [= <- <-]. split; [|assumption].
    exists (prev_action G1). split; [reflexivity|assumption].
  - split; [split; reflexivity|]. discriminate.
Qed.

Lemma step_runs_chosen_action_witness :
  (exists a, choose_action (level_1_1 on_floor) initial
             = Ok (value a,
                   {| row := 12; col := 6; prev_x := 100; curr_x := 100;
                      prev_action := RIGHT; next_action := RIGHT |}) /\
             run_action 1 (value a)
             = Ok [send_input (PRESS ARROW_RIGHT); tick;
                   send_input (RELEASE ARROW_RIGHT)]) /\
  forall b,
    actuate_all [send_input (PRESS ARROW_RIGHT); tick;
                 send_input (RELEASE ARROW_RIGHT)] nothing_held b = false.
Proof.
  apply (proj2 (step_runs_chosen_action 1 (level_1_1 on_floor) initial)).
  vm_compute. reflexivity.
Defined.

Lemma run_action_out_of_range (act_freq : nat) (action : Z) :
  action < -6 \/ 15 < action ->
  item valid_actions action = IndexError /\
  recipe act_freq action = IndexError /\
  run_action act_freq action = IndexError.
Proof.
  intros H.
  assert (Hitem : item valid_actions action = IndexError).
  { unfold item, index. cbn [length valid_actions].
    destruct (Z.leb_spec 0 action);
      destruct (Z.ltb_spec action (Z.of_nat 6));
      destruct (Z.leb_spec (- Z.of_nat 6) action);
      destruct (Z.ltb_spec action 0);
      cbn [andb bind]; try lia; reflexivity. }
  assert (Hrecipe : recipe act_freq action = IndexError).
  { unfold recipe. cbn [value].
    repeat match goal with
           | |- context [action =? ?k] =>
               destruct (Z.eqb_spec action k); [lia|]
           end.
    rewrite Hitem. reflexivity. }
  split; [assumption|]. split; [assumption|].
  unfold run_action. rewrite Hrecipe. reflexivity.
Qed.

(** X15. [run_action] returns exactly on the integers from -6 to 15: the
    ten compound values, the six indices of the button lists and the six
    negative indices that count from their end.  On any other integer the
    subscript [self.valid_actions[action]] of its last branch raises, and
    so does the call. *)
Theorem run_action_domain (act_freq : nat) (action : Z) :
  ((exists calls, run_action act_freq action = Ok calls) <->
   -6 <= action <= 15) /\
  (run_action act_freq action = IndexError <->
   action < -6 \/ 15 < action) /\
  (action < -6 \/ 15 < action ->
   item valid_actions action = IndexError /\
   recipe act_freq action = IndexError).
Proof.
  assert (Hin : -6 <= action <= 15 ->
                exists calls, run_action act_freq action = Ok calls).
  { intros H.
    assert (Hcases : action = -6 \/ action = -5 \/ action = -4 \/ action = -3
                     \/ action = -2 \/ action = -1 \/ action = 0
                     \/ action = 1 \/ action = 2 \/ action = 3 \/ action = 4
                     \/ action = 5 \/ action = 6 \/ action = 7 \/ action = 8
                     \/ action = 9 \/ action = 10 \/ action = 11
                     \/ action = 12 \/ action = 13 \/ action = 14
                     \/ action = 15) by lia.
    repeat destruct Hcases as [->|Hcases]; try subst action;
      eexists; reflexivity. }
  split; [split; [|assumption]|split; [split|]].
  - intros [calls H].
    destruct (Z_le_gt_dec (-6) action) as [Hlo|Hlo];
      [destruct (Z_le_gt_dec action 15) as [Hhi|Hhi]; [lia|]|];
      exfalso;
      destruct (run_action_out_of_range act_freq action ltac:(lia))
        as (_ & _ & E); congruence.
  - intros H.
    destruct (Z_le_gt_dec (-6) action) as [Hlo|Hlo]; [|lia].
    destruct (Z_le_gt_dec action 15) as [Hhi|Hhi]; [|lia].
    destruct (Hin (conj Hlo Hhi)) as [calls E]. congruence.
  - intros H. apply run_action_out_of_range. assumption.
  - intros H. destruct (run_action_out_of_range act_freq action H)
      as (H1 & H2 & _). auto.
Qed.

Lemma run_action_domain_witness :
  item valid_actions 16 = IndexError /\ recipe 10 16 = IndexError.
Proof.
  apply (proj2 (proj2 (run_action_domain 10 16))). lia.
Defined.

Lemma ticks_in_app (l1 l2 : list call) :
  ticks_in (l1 ++ l2) = (ticks_in l1 + ticks_in l2)%nat.
Proof.
  induction l1 as [|[e|] l1 IH]; simpl; auto.
Qed.

Lemma ticks_in_ticks (n : nat) : ticks_in (ticks n) = n.
Proof. induction n as [|n IH]; simpl; auto. Qed.

(** X16. For every member of [Action], [run_action] advances the emulator
    by at least [act_freq] and at most ten times [act_freq] ticks. *)
Theorem run_action_ticks (act_freq : nat) (a : Action) (calls : list call) :
  run_action act_freq (value a) = Ok calls ->
  (act_freq <= ticks_in calls <= 10 * act_freq)%nat.
Proof.
  destruct a; intros [= <-];
    repeat (rewrite ticks_in_app || rewrite ticks_in_ticks
            || (progress cbn [ticks_in]));
    try change (fst (Nat.divmod act_freq 4 0 4)) with (act_freq / 5)%nat;
    pose proof (Nat.Div0.div_le_upper_bound act_freq 5 act_freq ltac:(lia));
    lia.
Qed.

Lemma run_action_ticks_witness :
  (10 <= ticks_in [send_input (PRESS BUTTON_A); send_input (PRESS ARROW_RIGHT);
                   tick; tick; tick; tick; tick; tick; tick; tick; tick; tick;
                   send_input (RELEASE ARROW_RIGHT);
                   send_input (RELEASE BUTTON_A)] <= 10 * 10)%nat.
Proof.
  apply (run_action_ticks 10 JUMP_RIGHT). reflexivity.
Defined.

(** ** Where four of the compound actions come from *)

Lemma rules_provenance (env : environment) (prev_action : Action)
    (prev_x curr_x row col enemy_row enemy_col : Z) (enemy_dist : dist)
    (enemy_type : option Z) (obstacle_check : obstacle) (a : Action) :
  rules env prev_action prev_x curr_x row col enemy_row enemy_col enemy_dist
        enemy_type obstacle_check = Ok a ->
  (a = JUMP_BIG_GAP -> prev_action = UP) /\
  (a = ENEMY_LEFT -> prev_action = JUMP) /\
  (a = JUMP_EMPTY_REDUCED -> get_world env = 1 /\ get_stage env = 2) /\
  (a = JUMP_STAIRS -> prev_x = curr_x).
Proof.
  unfold rules, react_to_enemy, process_gumbas, jump_empty, collect_power_up,
    jump_obstacle.
  intros H.
  repeat match type of H with
         | context [bind ?m _] =>
             let E := fresh "E" in destruct m eqn:E; cbn [bind] in H;
             try discriminate
         | context [if ?c then _ else _] =>
             let E := fresh "E" in destruct c eqn:E; try discriminate
         | context [match ?o with Some _ => _ | None => _ end] => destruct o
         | context [match ?o with obstacle_found => _ | _ => _ end] =>
             destruct o
         end;
    injection H as <-;
    (split; [|split; [|split]]); intros Ha; try discriminate;
    rewrite ?andb_true_iff, ?Action_eqb_eq, ?Z.eqb_eq in *;
    intuition auto.
Qed.

(** X17. A call of [choose_action] returns the value of JUMP_BIG_GAP only
    after UP, that of ENEMY_LEFT only after JUMP, that of
    JUMP_EMPTY_REDUCED only in world 1, stage 2, and that of JUMP_STAIRS
    only when the horizontal position has not changed since the previous
    call. *)
Theorem compound_actions_provenance (env : environment) (G G' : globals)
    (v : Z) :
  choose_action env G = Ok (v, G') ->
  (v = value JUMP_BIG_GAP -> prev_action G = UP) /\
  (v = value ENEMY_LEFT -> prev_action G = JUMP) /\
  (v = value JUMP_EMPTY_REDUCED -> get_world env = 1 /\ get_stage env = 2) /\
  (v = value JUMP_STAIRS -> prev_x G = get_x_position env).
Proof.
  intros H. apply choose_action_Ok in H.
  destruct H as (row & col & er & ec & ed & et & oc & a
                 & _ & _ & _ & _ & Hr & _ & -> & _).
  apply rules_provenance in Hr. destruct Hr as (H1 & H2 & H3 & H4).
  assert (Hfix : forall c, c <> RIGHT ->
                   value (fix_up_stuck (prev_action G) a) = value c -> a = c).
  { intros c Hc Hv. apply value_inj in Hv. unfold fix_up_stuck in Hv.
    destruct (Action_eqb (prev_action G) UP && Action_eqb a UP);
      [congruence|assumption]. }
  split; [|split; [|split]]; intros Hv; apply Hfix in Hv;
    try discriminate; auto.
Qed.

Lemma compound_actions_provenance_witness :
  (value ENEMY_LEFT = value JUMP_BIG_GAP -> JUMP = UP) /\
  (value ENEMY_LEFT = value ENEMY_LEFT -> JUMP = JUMP) /\
  (value ENEMY_LEFT = value JUMP_EMPTY_REDUCED -> 1 = 1 /\ 1 = 2) /\
  (value ENEMY_LEFT = value JUMP_STAIRS -> 0 = 100).
Proof.
  apply (compound_actions_provenance (level_1_1 gumba_level) (after JUMP)
           {| row := 10; col := 5; prev_x := 100; curr_x := 100;
              prev_action := ENEMY_LEFT; next_action := RIGHT |}).
  vm_compute. reflexivity.
Defined.

(** ** The queries on the example game areas *)

Lemma check_platform_jump_iff_witness :
  exists a b, platform_at under_platform 12 6 a b.
Proof.
  apply (proj2 (check_platform_jump_iff 12 6 under_platform
                  ltac:(split; reflexivity) ltac:(split; simpl; lia))).
  vm_compute. reflexivity.
Defined.

Lemma check_on_ground_iff_witness : exists a, ground_row on_floor 6 a.
Proof.
  apply (proj2 (check_on_ground_iff 12 6 on_floor ltac:(lia)
                                    ltac:(simpl; lia))).
  vm_compute. reflexivity.
Defined.

Lemma check_obstacle_sound_witness :
  12 <= 14 /\
  exists a b,
    obstacle_cell before_pipe 12 6 a b /\
    dist_leb (get_distance 12 6 a b) 2.0 = true /\
    (obstacle_found = found_stairs ->
     tile before_pipe a b = Element.GROUND /\ a = 12 + 1 /\
     cell_below before_pipe (a - 1) b Element.GROUND).
Proof.
  apply (check_obstacle_sound 12 6 before_pipe obstacle_found).
  - vm_compute. reflexivity.
  - discriminate.
Defined.

Lemma last_row_without_block (g : grid) (x : Z) :
  all_cells g (fun a b => negb (a =? x) || negb (tile g a b =? Element.BLOCK))
  = true ->
  0 <= x < Z.of_nat (fst (shape g)) ->
  forall b, 0 <= b < Z.of_nat (snd (shape g)) -> tile g x b <> Element.BLOCK.
Proof.
  intros H Hx b Hb. rewrite all_cells_spec in H.
  specialize (H x b (conj Hx Hb)). rewrite Z.eqb_refl in H. cbn in H.
  apply negb_true_iff, Z.eqb_neq in H. exact H.
Qed.

Lemma check_obstacle_returns_witness :
  exists o, check_obstacle 12 6 before_pipe = Ok o.
Proof.
  apply (proj2 (check_obstacle_returns 12 6 before_pipe)).
  - split; reflexivity.
  - split; simpl; lia.
  - simpl. lia.
  - intros b Hb. apply (last_row_without_block before_pipe 15).
    + vm_compute. reflexivity.
    + simpl. lia.
    + simpl in *. lia.
Defined.

Lemma check_empty_jump_returns_witness :
  exists r, check_empty_jump 12 1 hole_at_left_edge = Ok r.
Proof. apply (check_empty_jump_returns 12 1 hole_at_left_edge). lia. Defined.

Lemma check_power_up_calls_check_on_ground_witness :
  check_power_up 12 6 on_floor = Ok None.
Proof.
  apply (proj1 (check_power_up_calls_check_on_ground 12 6 on_floor)).
  intros a b Hin.
  assert (H : all_cells on_floor
                (fun a b => negb (tile on_floor a b =? Element.POWERUP))
              = true) by (vm_compute; reflexivity).
  rewrite all_cells_spec in H. specialize (H a b Hin).
  apply negb_true_iff, Z.eqb_neq in H. exact H.
Defined.

(** With Mario's top left cell in row 14 of the last column, [find_mario]
    returns column 20, which no row of the grid has, and [choose_action]
    returns UP without reading the grid at that column: its row test fails
    before the read. *)
Lemma low_at_right_edge_not_read :
  first_in_rows at_right_edge_low 1 14
                (Z.of_nat (snd (shape at_right_edge_low)) - 1) /\
  find_mario at_right_edge_low = Ok (14, 20) /\
  (forall r, get at_right_edge_low r 20 = IndexError) /\
  emits (level_1_1 at_right_edge_low) initial UP.
Proof.
  split; [|split; [|split]].
  - apply first_in_rows_check.
    + cell.
    + reflexivity.
    + vm_compute. reflexivity.
  - vm_compute. reflexivity.
  - intros r. apply get_past_last_column. simpl. lia.
  - eexists. split; vm_compute; reflexivity.
Qed.
